(** * myclass-admin: the two JSON repair scripts

    [clean_json.py] escapes stray quote characters in the values of the
    fields f and b, one line at a time; [fix_hints.py] strips backticks
    from the hint strings of a parsed JSON document.

    Python text is a sequence of Unicode code points, so a character is a
    code point ([N]) and a [str] is a list of them. *)

From Stdlib Require Import String Ascii DecimalString.
From Stdlib Require Import List NArith ZArith Arith Bool Lia SpecFloat.
Import ListNotations.

Set Implicit Arguments.

(** ** Text *)

Definition char := N.
Definition str := list char.

(** An ASCII literal as Python text. *)
Definition lit (s : string) : str := map N_of_ascii (list_ascii_of_string s).

Definition QUOTE : char := 34%N.
Definition BACKSLASH : char := 92%N.
Definition NEWLINE : char := 10%N.
Definition COMMA : char := 44%N.
Definition BACKTICK : char := 96%N.

(** [a == b] on text. *)
Definition str_eqb (a b : str) : bool :=
  if list_eq_dec N.eq_dec a b then true else false.

(** [s[a:b]] for indices within range (the only way the code slices). *)
Definition slice (s : str) (a b : nat) : str := firstn (b - a) (skipn a s).

(** ** The fragment of Python's [re] that [clean_json.py] uses

    A backtracking matcher in continuation-passing style: greedy operators try
    the longest alternative first and fall back on failure of what follows,
    which is the order in which [re] explores a pattern. *)
Module Re.

(** What [\s] matches in a [str] pattern: [Py_UNICODE_ISSPACE]. *)
Definition is_space (c : char) : bool :=
  ((9 <=? c) && (c <=? 13) || (28 <=? c) && (c <=? 32)
   || (c =? 133) || (c =? 160) || (c =? 5760)
   || (8192 <=? c) && (c <=? 8202)
   || (c =? 8232) || (c =? 8233) || (c =? 8239) || (c =? 8287)
   || (c =? 12288))%N.

Inductive cls : Type :=
| Dot                (* [.] without DOTALL: anything but a newline *)
| Space              (* [\s] *)
| Ch (c : char).     (* a literal character *)

Definition in_cls (k : cls) (c : char) : bool :=
  match k with
  | Dot => negb (c =? NEWLINE)%N
  | Space => is_space c
  | Ch x => (c =? x)%N
  end.

Inductive regex : Type :=
| Eps
| Bol                              (* [^] without MULTILINE *)
| Eol                              (* [$] without MULTILINE *)
| Atom (k : cls)
| Opt (k : cls)                    (* [k?], greedy *)
| Star (k : cls)                   (* [k*], greedy *)
| Seq (r1 r2 : regex)
| Group (n : nat) (r : regex).     (* capturing group number [n] *)

(** Spans of the groups closed so far, innermost last closed first. *)
Definition caps := list (nat * (nat * nat)).

(** What remains to be matched: position, rest of the text, groups. *)
Definition kont := nat -> str -> caps -> option caps.

Fixpoint star_loop (c : cls) (k : kont) (g : caps) (s : str) (i : nat)
  : option caps :=
  match s with
  | x :: s' =>
      if in_cls c x then
        match star_loop c k g s' (S i) with
        | Some m => Some m
        | None => k i s g
        end
      else k i s g
  | [] => k i s g
  end.

Definition one (c : cls) (k : kont) (g : caps) (s : str) (i : nat)
  : option caps :=
  match s with
  | x :: s' => if in_cls c x then k (S i) s' g else None
  | [] => None
  end.

Fixpoint run (r : regex) (i : nat) (s : str) (g : caps) (k : kont)
  : option caps :=
  match r with
  | Eps => k i s g
  | Bol => if i =? 0 then k i s g else None
  | Eol =>
      match s with
      | [] => k i s g
      | [c] => if (c =? NEWLINE)%N then k i s g else None
      | _ => None
      end
  | Atom c => one c k g s i
  | Opt c =>
      match one c k g s i with
      | Some m => Some m
      | None => k i s g
      end
  | Star c => star_loop c k g s i
  | Seq r1 r2 => run r1 i s g (fun i' s' g' => run r2 i' s' g' k)
  | Group n r => run r i s g (fun i' s' g' => k i' s' ((n, (i, i')) :: g'))
  end.

(** A literal string, and the concatenation of a list of pieces. *)
Definition Lit (s : str) : regex :=
  fold_right (fun c r => Seq (Atom (Ch c)) r) Eps s.

Definition Cat (rs : list regex) : regex := fold_right Seq Eps rs.

(** A match object: the text matched against and the spans of its groups. *)
Record Match : Type := { subject : str; spans : caps }.

Fixpoint span_of (n : nat) (g : caps) : option (nat * nat) :=
  match g with
  | [] => None
  | (m, ab) :: g' => if m =? n then Some ab else span_of n g'
  end.

(** [m.group(n)]; a group that took no part in the match gives [None] in
    Python, which the patterns below never produce. *)
Definition group (m : Match) (n : nat) : str :=
  match span_of n (spans m) with
  | Some (a, b) => slice (subject m) a b
  | None => []
  end.

(** [re.match(pattern, s)]: the pattern is tried at position 0 only. *)
Definition re_match (r : regex) (s : str) : option Match :=
  match run r 0 s [] (fun _ _ g => Some g) with
  | Some g => Some {| subject := s; spans := g |}
  | None => None
  end.

End Re.

(** ** Parsed JSON documents

    What [json.load] returns: [None], [bool], [int], [float], [str], [list]
    and [dict] with text keys.  A [dict] keeps its entries in insertion
    order; they are listed in that order. *)
Module Json.

#[local] Unset Elimination Schemes.
Inductive json : Type :=
| JNull
| JBool (b : bool)
| JInt (n : Z)
| JFloat (f : spec_float)
| JStr (s : str)
| JList (items : list json)
| JDict (entries : list (str * json)).
#[local] Set Elimination Schemes.

Definition dict := list (str * json).

(** [d.get(key)]: the value of the entry with this key, if there is one. *)
Fixpoint dict_get (d : dict) (key : str) : option json :=
  match d with
  | [] => None
  | (k, v) :: d' => if str_eqb k key then Some v else dict_get d' key
  end.

(** [d[key] = v]: the entry with this key gets the new value where it
    stands; a new key goes to the end. *)
Fixpoint dict_set (d : dict) (key : str) (v : json) : dict :=
  match d with
  | [] => [(key, v)]
  | (k, x) :: d' =>
      if str_eqb k key then (k, v) :: d' else (k, x) :: dict_set d' key v
  end.

(** [isinstance(v, str)] *)
Definition is_str (v : json) : bool :=
  match v with
  | JStr _ => true
  | _ => false
  end.

(** Induction on documents, with the hypothesis for every item of a list and
    every value of a dict. *)
Section Induction.
Variable P : json -> Prop.
Hypothesis Hnull : P JNull.
Hypothesis Hbool : forall b, P (JBool b).
Hypothesis Hint : forall n, P (JInt n).
Hypothesis Hfloat : forall f, P (JFloat f).
Hypothesis Hstr : forall s, P (JStr s).
Hypothesis Hlist : forall items, Forall P items -> P (JList items).
Hypothesis Hdict :
  forall d, Forall (fun kv => P (snd kv)) d -> P (JDict d).

Fixpoint json_induction (v : json) : P v :=
  match v with
  | JNull => Hnull
  | JBool b => Hbool b
  | JInt n => Hint n
  | JFloat f => Hfloat f
  | JStr s => Hstr s
  | JList items =>
      Hlist ((fix all (l : list json) : Forall P l :=
                match l with
                | [] => Forall_nil P
                | x :: l' => Forall_cons x (json_induction x) (all l')
                end) items)
  | JDict d =>
      Hdict ((fix all (l : dict) : Forall (fun kv => P (snd kv)) l :=
                match l with
                | [] => Forall_nil _
                | kv :: l' =>
                    Forall_cons kv (json_induction (snd kv)) (all l')
                end) d)
  end.
End Induction.

End Json.

(** ** clean_json.py *)
Module CleanJson.
Import Re Json.

(** The two designated keys. *)
Inductive key : Type := F | B.

Definition key_name (k : key) : str :=
  match k with F => lit "f" | B => lit "b" end.

(** The text that follows the indentation: the key in quotes, a colon, a
    space and the opening quote of the value. *)
Definition key_open (k : key) : str :=
  [QUOTE] ++ key_name k ++ [QUOTE] ++ lit ": " ++ [QUOTE].

(** The pattern of line 12 (key f) and of line 56 (key b): start of text,
    group 1 = whitespace, the opening text of the key, group 2 = any
    characters, a quote, group 3 = an optional comma, end of text. *)
Definition pattern (k : key) : regex :=
  Cat [ Bol; Group 1 (Star Space); Lit (key_open k); Group 2 (Star Dot);
        Atom (Ch QUOTE); Group 3 (Opt (Ch COMMA)); Eol ].

(** One turn of the [while] loop of lines 37-48 (and 64-73): the new values
    of [i] and [fixed_content]. *)
Definition loop_body (content : str) (i : nat) (fixed_content : str)
  : nat * str :=
  let char := nth i content 0%N in
  let fixed_content :=
    if (char =? QUOTE)%N then
      if (0 <? i) && (nth (i - 1) content 0%N =? BACKSLASH)%N
      then fixed_content ++ [char]
      else fixed_content ++ [BACKSLASH; QUOTE]
    else fixed_content ++ [char] in
  (i + 1, fixed_content).

(** [while i < len(content): ...], at most [fuel] turns. *)
Fixpoint while_loop (fuel : nat) (content : str) (i : nat)
  (fixed_content : str) : nat * str :=
  match fuel with
  | 0 => (i, fixed_content)
  | S fuel' =>
      if i <? length content then
        let '(i', fixed') := loop_body content i fixed_content in
        while_loop fuel' content i' fixed'
      else (i, fixed_content)
  end.

(** The loop started at [i = 0] with an empty [fixed_content]; [len(content)]
    turns are exactly what it takes ([while_loop_exit] below). *)
Definition escape_quotes (content : str) : str :=
  snd (while_loop (length content) content 0 []).

(** The branch taken when the pattern of key [k] matches. *)
Definition rebuild (k : key) (m : Match) : str :=
  let prefix := group m 1 in
  let content := group m 2 in
  let suffix := group m 3 in
  let fixed_content := escape_quotes content in
  prefix ++ key_open k ++ fixed_content ++ [QUOTE] ++ suffix.

Definition fix_line (line : str) : str :=
  match re_match (pattern F) line with
  | Some f_match => rebuild F f_match
  | None =>
      match re_match (pattern B) line with
      | Some b_match => rebuild B b_match
      | None => line
      end
  end.

(** *** [process_file]: files, console and exceptions

    A file holds text (its bytes decoded as UTF-8); the console receives the
    printed lines.  Opening a file that is not there for reading raises
    [FileNotFoundError]; writing replaces the text of the file, or creates
    it. *)

Record JSONDecodeError : Type :=
  { msg : str; pos : nat; lineno : nat; colno : nat }.

Inductive exn : Type :=
| FileNotFoundError
| DecodeError (e : JSONDecodeError).

Record World : Type :=
  { files : str -> option str; stdout : list str }.

Inductive result (A : Type) : Type :=
| Ok (a : A)
| Raise (e : exn).
Arguments Ok {A} a.
Arguments Raise {A} e.

(** A command runs in a world and leaves a value or an exception, and the
    world as it is then. *)
Definition M (A : Type) : Type := World -> result A * World.

Definition ret {A : Type} (a : A) : M A := fun w => (Ok a, w).

Definition bind {A B : Type} (c : M A) (k : A -> M B) : M B :=
  fun w =>
    match c w with
    | (Ok a, w') => k a w'
    | (Raise e, w') => (Raise e, w')
    end.

Definition raise {A : Type} (e : exn) : M A := fun w => (Raise e, w).

(** [try: body except ...:], the handlers as a partial function: an
    exception that no handler takes goes on. *)
Definition try_except {A : Type} (body : M A) (handler : exn -> option (M A))
  : M A :=
  fun w =>
    match body w with
    | (Ok a, w') => (Ok a, w')
    | (Raise e, w') =>
        match handler e with
        | Some h => h w'
        | None => (Raise e, w')
        end
    end.

Notation "x <- c ;; k" := (bind c (fun x => k))
  (at level 61, c at next level, right associativity).
Notation "c ;; k" := (bind c (fun _ => k))
  (at level 61, right associativity).

Definition print (line : str) : M unit :=
  fun w => (Ok tt, {| files := files w; stdout := stdout w ++ [line] |}).

Definition CR : char := 13%N.

(** Text mode with universal newlines: a carriage return, alone or before a
    newline, is read as a newline. *)
Fixpoint universal_newlines (s : str) : str :=
  match s with
  | [] => []
  | c :: rest =>
      if (c =? CR)%N then
        NEWLINE :: match rest with
                   | n :: rest' =>
                       if (n =? NEWLINE)%N then universal_newlines rest'
                       else universal_newlines rest
                   | [] => []
                   end
      else c :: universal_newlines rest
  end.

(** The lines of a text, each with its newline, the last one maybe without;
    [cur] is the line being read. *)
Fixpoint split_lines (cur : str) (s : str) : list str :=
  match s with
  | [] => match cur with [] => [] | _ => [cur] end
  | c :: rest =>
      if (c =? NEWLINE)%N then (cur ++ [c]) :: split_lines [] rest
      else split_lines (cur ++ [c]) rest
  end.

(** [with open(name, 'r', encoding='utf-8') as f: lines = f.readlines()] *)
Definition read_lines (name : str) : M (list str) :=
  fun w =>
    match files w name with
    | Some text => (Ok (split_lines [] (universal_newlines text)), w)
    | None => (Raise FileNotFoundError, w)
    end.

(** [with open(name, 'w', encoding='utf-8') as f: f.write(text)] *)
Definition write_text (name : str) (text : str) : M unit :=
  fun w =>
    (Ok tt,
     {| files := fun n => if str_eqb n name then Some text else files w n;
        stdout := stdout w |}).

(** [line.rstrip(NEWLINE)]: the newlines at the end go. *)
Fixpoint lstrip_newlines (s : str) : str :=
  match s with
  | c :: rest => if (c =? NEWLINE)%N then lstrip_newlines rest else s
  | [] => []
  end.

Definition rstrip_newlines (line : str) : str :=
  rev (lstrip_newlines (rev line)).

(** [sep.join(parts)] *)
Fixpoint join (sep : str) (parts : list str) : str :=
  match parts with
  | [] => []
  | [p] => p
  | p :: rest => p ++ sep ++ join sep rest
  end.

(** [str(n)] for a natural number. *)
Definition str_of_nat (n : nat) : str :=
  lit (NilEmpty.string_of_uint (Nat.to_uint n)).

(** [str(e)] for a [JSONDecodeError]. *)
Definition error_text (e : JSONDecodeError) : str :=
  msg e ++ lit ": line " ++ str_of_nat (lineno e) ++ lit " column "
  ++ str_of_nat (colno e) ++ lit " (char " ++ str_of_nat (pos e) ++ lit ")".

Definition input_file : str := lit "raw_questions.json".
Definition output_file : str := lit "clean_questions.json".
Definition debug_file : str := lit "debug_intermediate.json".

(** Lines 88-90: the lines repaired and joined again. *)
Definition repaired (lines : list str) : str :=
  let fixed_lines := map (fun line => fix_line (rstrip_newlines line)) lines in
  join [NEWLINE] fixed_lines.

Section ProcessFile.
(** The parser and the printer of the [json] library: [json.loads] gives a
    document or raises [JSONDecodeError]; [json_dumps] is the text that
    [json.dump(parsed, f, indent=4, ensure_ascii=False)] writes. *)
Variable json_loads : str -> JSONDecodeError + json.
Variable json_dumps : json -> str.

Definition loads (text : str) : M json :=
  match json_loads text with
  | inr parsed => ret parsed
  | inl e => raise (DecodeError e)
  end.

Definition process_file : M unit :=
  print (lit "Reading " ++ input_file ++ lit "...") ;;
  try_except
    (lines <- read_lines input_file ;;
     let full_content := repaired lines in
     try_except
       (parsed <- loads full_content ;;
        print (lit "Success! The fixed content is valid JSON.") ;;
        write_text output_file (json_dumps parsed) ;;
        print (lit "Saved clean JSON to " ++ output_file))
       (fun ex =>
          match ex with
          | DecodeError e =>
              Some
                (print (lit "Cleaning pass finished, but result is still invalid.") ;;
                 print (lit "Error: " ++ error_text e) ;;
                 print (lit "At: " ++ str_of_nat (lineno e) ++ lit ":"
                        ++ str_of_nat (colno e)) ;;
                 write_text debug_file full_content)
          | _ => None
          end))
    (fun ex =>
       match ex with
       | FileNotFoundError =>
           Some (print (lit "File " ++ input_file ++ lit " not found."))
       | _ => None
       end).
End ProcessFile.

(** *** Vocabulary of the statements about [fix_line] *)

Definition all_space (w : str) : bool := forallb is_space w.

Definition no_newline (s : str) : bool :=
  forallb (fun c => negb (c =? NEWLINE)%N) s.

(** Nothing, or one comma. *)
Definition opt_comma (s : str) : bool :=
  match s with
  | [] => true
  | [c] => (c =? COMMA)%N
  | _ => false
  end.

(** Nothing, or one newline: what [$] leaves unread. *)
Definition opt_newline (s : str) : bool :=
  match s with
  | [] => true
  | [c] => (c =? NEWLINE)%N
  | _ => false
  end.

(** What the scan puts out for the character at index [i] of the content:
    a quote preceded in the content by a backslash, and any other character,
    as it is; any other quote as a backslash and a quote. *)
Definition emitted (content : str) (i : nat) : str :=
  let c := nth i content 0%N in
  if (c =? QUOTE)%N then
    if (0 <? i) && (nth (i - 1) content 0%N =? BACKSLASH)%N
    then [QUOTE]
    else [BACKSLASH; QUOTE]
  else [c].

(** The outputs for the indices 0, 1, ..., in this order. *)
Definition rewritten (content : str) : str :=
  concat (map (emitted content) (seq 0 (length content))).

(** The same scan by recursion on the text, carrying the previous
    character. *)
Definition is_backslash (prev : option char) : bool :=
  match prev with
  | Some c => (c =? BACKSLASH)%N
  | None => false
  end.

Definition emit (prev : option char) (c : char) : str :=
  if (c =? QUOTE)%N then
    if is_backslash prev then [QUOTE] else [BACKSLASH; QUOTE]
  else [c].

Fixpoint escape_from (prev : option char) (s : str) : str :=
  match s with
  | [] => []
  | c :: s' => emit prev c ++ escape_from (Some c) s'
  end.

(** Every quote of [s] comes right after a backslash, [prev] being the
    character before [s]. *)
Fixpoint escaped_from (prev : option char) (s : str) : bool :=
  match s with
  | [] => true
  | c :: s' =>
      (if (c =? QUOTE)%N then is_backslash prev else true)
      && escaped_from (Some c) s'
  end.

(** The same, by index. *)
Definition quotes_escaped (s : str) : Prop :=
  forall i, i < length s -> nth i s 0%N = QUOTE ->
            0 < i /\ nth (i - 1) s 0%N = BACKSLASH.

(** What may follow the content: the closing quote, an optional comma (the
    value of group 3) and the end of the text as [$] understands it. *)
Definition closing (s : str) : option str :=
  match s with
  | q :: rest =>
      if (q =? QUOTE)%N then
        match rest with
        | [] => Some []
        | [c] =>
            if (c =? COMMA)%N then Some [c]
            else if (c =? NEWLINE)%N then Some [] else None
        | [c; n] =>
            if (c =? COMMA)%N && (n =? NEWLINE)%N then Some [c] else None
        | _ => None
        end
      else None
  | [] => None
  end.

(** A line of the designated shape, assembled from its parts. *)
Definition kv_line (k : key) (w c s : str) : str :=
  w ++ key_open k ++ c ++ [QUOTE] ++ s.

(** Which pattern [fix_line] finds on a line, in the order it tries them. *)
Definition designated (line : str) : option (key * Match) :=
  match re_match (pattern F) line with
  | Some f_match => Some (F, f_match)
  | None =>
      match re_match (pattern B) line with
      | Some b_match => Some (B, b_match)
      | None => None
      end
  end.

(** Index of the last occurrence of [x] in [s], counting from [i]. *)
Fixpoint last_index_from (x : char) (i : nat) (s : str) (acc : option nat)
  : option nat :=
  match s with
  | [] => acc
  | c :: s' =>
      last_index_from x (S i) s' (if (c =? x)%N then Some i else acc)
  end.

Definition rightmost_quote (line : str) : option nat :=
  last_index_from QUOTE 0 line None.

(** *** Auxiliary definitions of the proofs *)

(** The character before index [i], as the loop reads it. *)
Definition prev_at (content : str) (i : nat) : option char :=
  if 0 <? i then Some (nth (i - 1) content 0%N) else None.

(** The continuations met on the way through a pattern. *)
Definition kfin : kont := fun _ _ g => Some g.

Definition tail_re : regex :=
  Cat [Atom (Ch QUOTE); Group 3 (Opt (Ch COMMA)); Eol].

Definition k_close (a : nat) : kont :=
  fun i s g => run tail_re i s ((2, (a, i)) :: g) kfin.

Definition k_content : kont :=
  fun i s g => star_loop Dot (k_close i) g s i.

Definition k_key (k : key) : kont :=
  fun i s g => run (Lit (key_open k)) i s ((1, (0, i)) :: g) k_content.

(** The spans of the three groups on a line assembled from its parts. *)
Definition spans_kv (k : key) (w c sfx : str) : caps :=
  let a := length w + length (key_open k) in
  let b := a + length c in
  [(3, (S b, S b + length sfx)); (2, (a, b)); (1, (0, length w))].

Definition match_kv (k : key) (w c sfx t : str) : Match :=
  {| subject := w ++ key_open k ++ c ++ QUOTE :: sfx ++ t;
     spans := spans_kv k w c sfx |}.

Definition not_quote (c : char) : bool := negb (c =? QUOTE)%N.

(** *** The lines of the examples *)

(** A parser that accepts nothing, a printer, and a world with the input
    file: an opening brace and the line of the first example. *)
Definition no_value : JSONDecodeError :=
  {| msg := lit "Expecting property name enclosed in double quotes";
     pos := 2; lineno := 2; colno := 1 |}.

Definition rejecting_loads (text : str) : JSONDecodeError + json :=
  inl no_value.

Definition null_dumps (parsed : json) : str := lit "null".

Definition raw_text : str :=
  lit "{" ++ [NEWLINE] ++ kv_line F (lit "  ")
    (lit "He said " ++ [QUOTE] ++ lit "hi" ++ [QUOTE] ++ lit " to me") [COMMA]
  ++ [NEWLINE].

Definition raw_world : World :=
  {| files := fun name =>
                if str_eqb name input_file then Some raw_text else None;
     stdout := [] |}.

(** The lines of the examples: two spaces, key f, the content, a comma. *)
Definition said_content : str :=
  lit "He said " ++ [QUOTE] ++ lit "hi" ++ [QUOTE] ++ lit " to me".

Definition said_fixed : str :=
  lit "He said " ++ [BACKSLASH; QUOTE] ++ lit "hi" ++ [BACKSLASH; QUOTE]
  ++ lit " to me".

Definition said_line : str := kv_line F (lit "  ") said_content [COMMA].

Definition escaped_content : str :=
  lit "already " ++ [BACKSLASH; QUOTE] ++ lit "escaped" ++ [BACKSLASH; QUOTE]
  ++ lit " text".

Definition escaped_line : str := kv_line F (lit "  ") escaped_content [COMMA].

End CleanJson.

(** ** fix_hints.py *)
Module FixHints.
Import Json.

Definition hint : str := lit "hint".

(** [s.replace(BACKTICK, empty)] *)
Definition strip_backticks (s : str) : str :=
  filter (fun c => negb (c =? BACKTICK)%N) s.

(** [value.replace(BACKTICK, empty)] on a value that is a text. *)
Definition replace_backticks (value : json) : json :=
  match value with
  | JStr s => JStr (strip_backticks s)
  | _ => value
  end.

(** Lines 8-9, on an item of a list that is a dict: when the key hint is
    there with a text value, the value loses its backticks. *)
Definition clean_own_hint (item : dict) : dict :=
  match dict_get item hint with
  | Some v =>
      if is_str v then dict_set item hint (replace_backticks v) else item
  | None => item
  end.

(** The body of the loop of lines 6-16 for one item of a list. *)
Definition clean_item (clean_hints : json -> json) (item : json) : json :=
  match item with
  | JDict d =>
      JDict (clean_own_hint (map (fun kv => (fst kv, clean_hints (snd kv))) d))
  | _ => item
  end.

(** The body of the loop of lines 18-22 for one entry of a dict: the keys of
    a dict are distinct, so that [data[key] = ...] changes the entry being
    visited. *)
Definition clean_entry (clean_hints : json -> json) (kv : str * json)
  : str * json :=
  let '(key, value) := kv in
  if str_eqb key hint && is_str value then (key, replace_backticks value)
  else (key, clean_hints value).

(** [clean_hints] changes its argument in place and returns nothing; here it
    returns the document as it stands after the call.  Parsed documents share
    no node, so the changes made to a value through one entry are seen
    through that entry only.

    In the list branch the source first assigns the hint of the item (lines
    8-9) and then calls itself on every value of the item (lines 15-16); the
    calls are written first in [clean_item], for the recursion to be
    structural, and [FixHintsFacts.clean_item_source_order] gives the
    source's order. *)
Fixpoint clean_hints (data : json) : json :=
  match data with
  | JList items => JList (map (clean_item clean_hints) items)
  | JDict d => JDict (map (clean_entry clean_hints) d)
  | _ => data
  end.

(** *** Vocabulary of the statements about [clean_hints] *)

(** The traversal the specification asks for: every item of every list, every
    value of every dict. *)
Fixpoint clean_everywhere (data : json) : json :=
  match data with
  | JList items => JList (map clean_everywhere items)
  | JDict d => JDict (map (clean_entry clean_everywhere) d)
  | _ => data
  end.

(** A document with the text values under the key hint blanked: two
    documents with the same image differ in those texts at most. *)
Definition blank_entry (blank : json -> json) (kv : str * json)
  : str * json :=
  let '(key, value) := kv in
  if str_eqb key hint && is_str value then (key, JStr [])
  else (key, blank value).

Fixpoint blank_hints (data : json) : json :=
  match data with
  | JList items => JList (map blank_hints items)
  | JDict d => JDict (map (blank_entry blank_hints) d)
  | _ => data
  end.

Definition is_list (v : json) : bool :=
  match v with
  | JList _ => true
  | _ => false
  end.

(** No list is an item of a list. *)
Fixpoint no_list_in_list (v : json) : bool :=
  match v with
  | JList items =>
      forallb (fun item => negb (is_list item) && no_list_in_list item) items
  | JDict d => forallb (fun kv => no_list_in_list (snd kv)) d
  | _ => true
  end.

(** The keys of every dict are distinct, as they are in a Python dict. *)
Fixpoint keys_distinct (v : json) : Prop :=
  match v with
  | JList items =>
      fold_right (fun item rest => keys_distinct item /\ rest) True items
  | JDict d =>
      NoDup (map fst d)
      /\ fold_right (fun kv rest => keys_distinct (snd kv) /\ rest) True d
  | _ => True
  end.

(** *** Auxiliary definitions of the proofs and the documents of the
    examples *)

(** A function applied to the values of a dict. *)
Definition on_values (f : json -> json) (d : dict) : dict :=
  map (fun kv => (fst kv, f (snd kv))) d.

(** The document of the example and what the cleaning makes of it. *)
Definition example_doc : json :=
  JDict [(lit "a",
          JList [JDict [(hint, JStr (lit "Use `x` carefully"))];
                 JDict [(lit "other", JStr (lit "keep`this"))]])].

Definition example_cleaned : json :=
  JDict [(lit "a",
          JList [JDict [(hint, JStr (lit "Use x carefully"))];
                 JDict [(lit "other", JStr (lit "keep`this"))]])].

(** A hint two lists deep. *)
Definition nested_doc : json :=
  JList [JList [JDict [(hint, JStr (lit "`x`"))]]].

Definition nested_cleaned : json :=
  JList [JList [JDict [(hint, JStr (lit "x"))]]].

End FixHints.

(** ** fix_hints.py, lines 24-35: the script around [clean_hints] *)
Module FixHintsScript.
Import Json CleanJson FixHints.

Definition data_file : str := lit "valid_questions.json".

(** [with open(name, 'r', encoding='utf-8') as f: ... f.read()], which is
    how [json.load(f)] gets its text. *)
Definition read_text (name : str) : M str :=
  fun w =>
    match files w name with
    | Some text => (Ok (universal_newlines text), w)
    | None => (Raise FileNotFoundError, w)
    end.

(** [str(e)] for the exceptions that the script can meet; the only file it
    opens is [data_file]. *)
Definition exception_text (ex : exn) : str :=
  match ex with
  | FileNotFoundError =>
      lit "[Errno 2] No such file or directory: 'valid_questions.json'"
  | DecodeError e => error_text e
  end.

Section Script.
(** [json.load] through its parser, and the text that
    [json.dump(data, f, ensure_ascii=False, indent=2)] writes. *)
Variable json_loads : str -> JSONDecodeError + json.
Variable json_dumps : json -> str.

Definition script : M unit :=
  try_except
    (text <- read_text data_file ;;
     data <- loads json_loads text ;;
     let data := clean_hints data in
     write_text data_file (json_dumps data) ;;
     print (lit "Successfully cleaned valid_questions.json"))
    (fun e => Some (print (lit "Error: " ++ exception_text e))).
End Script.

End FixHintsScript.

(** ** Vocabulary of the further properties *)
Module Coverage.
Import Re Json CleanJson FixHints FixHintsScript.

(** [s.split(NEWLINE)]; [cur] is the part being read. *)
Fixpoint split_from (cur : str) (s : str) : list str :=
  match s with
  | [] => [cur]
  | c :: rest =>
      if (c =? NEWLINE)%N then cur :: split_from [] rest
      else split_from (cur ++ [c]) rest
  end.

Definition split_newline (s : str) : list str := split_from [] s.

(** A text without its final newline, if it has one. *)
Fixpoint chomp (s : str) : str :=
  match s with
  | [] => []
  | [c] => if (c =? NEWLINE)%N then [] else [c]
  | c :: rest => c :: chomp rest
  end.

(** A text with its backslashes taken out. *)
Definition drop_backslashes (s : str) : str :=
  filter (fun c => negb (c =? BACKSLASH)%N) s.

(** The number of quotes of [s] that do not come right after a backslash,
    [prev] being the character before [s]. *)
Fixpoint bare_quotes_from (prev : option char) (s : str) : nat :=
  match s with
  | [] => 0
  | c :: s' =>
      (if (c =? QUOTE)%N && negb (is_backslash prev) then 1 else 0)
      + bare_quotes_from (Some c) s'
  end.

Definition bare_quotes (s : str) : nat := bare_quotes_from None s.

(** A text of the shape of a pattern: whitespace, the key, a content without
    newline, a quote, an optional comma and an optional final newline. *)
Definition has_shape (k : key) (line : str) : Prop :=
  exists w c sfx t,
    all_space w = true /\ no_newline c = true /\
    opt_comma sfx = true /\ opt_newline t = true /\
    line = w ++ key_open k ++ c ++ QUOTE :: sfx ++ t.

Definition no_backtick (s : str) : bool :=
  forallb (fun c => negb (c =? BACKTICK)%N) s.

(** No text under the key hint, at any depth, holds a backtick. *)
Definition hint_entry_clean (clean : json -> bool) (kv : str * json) : bool :=
  let '(key, value) := kv in
  match value with
  | JStr s => if str_eqb key hint then no_backtick s else true
  | _ => clean value
  end.

Fixpoint hints_clean (data : json) : bool :=
  match data with
  | JList items => forallb hints_clean items
  | JDict d => forallb (hint_entry_clean hints_clean) d
  | _ => true
  end.

(** The items of a list, the entries of a dict. *)
Definition items_of (v : json) : list json :=
  match v with
  | JList items => items
  | _ => []
  end.

(** *** Values of the examples *)

(** A list of two questions, the first with a hint. *)
Definition questions : json :=
  JList [JDict [(lit "q", JStr (lit "1+1")); (hint, JStr (lit "use `+`"))];
         JDict [(lit "q", JStr (lit "`2`"))]].

Definition questions_cleaned : json :=
  JList [JDict [(lit "q", JStr (lit "1+1")); (hint, JStr (lit "use +"))];
         JDict [(lit "q", JStr (lit "`2`"))]].

Definition questions_text : str := lit "[questions]".
Definition cleaned_text : str := lit "[cleaned]".

(** A parser and a printer that know these two documents. *)
Definition toy_loads (text : str) : JSONDecodeError + json :=
  if str_eqb text questions_text then inr questions
  else if str_eqb text cleaned_text then inr questions_cleaned
  else inl no_value.

Definition toy_dumps (data : json) : str :=
  match data with
  | JList (JDict [_; (_, JStr s)] :: _) =>
      if no_backtick s then cleaned_text else questions_text
  | _ => lit "null"
  end.

Definition world_with (name text : str) : World :=
  {| files := fun n => if str_eqb n name then Some text else None;
     stdout := [] |}.

Definition empty_world : World :=
  {| files := fun _ => None; stdout := [] |}.

End Coverage.

(** ** Facts about the matcher *)
Module ReFacts.
Import Re.

(** A greedy star that succeeds has consumed a prefix of characters of the
    class and handed the rest to its continuation. *)
Lemma star_loop_sound (c : cls) (k : kont) (g : caps) (s : str) (i : nat)
  (m : caps) :
  star_loop c k g s i = Some m ->
  exists p q, s = p ++ q /\ forallb (in_cls c) p = true
              /\ k (i + length p) q g = Some m.
Proof.
  revert i. induction s as [|x s IH]; intros i H; simpl in H.
  - exists [], []. simpl. rewrite Nat.add_0_r. auto.
  - destruct (in_cls c x) eqn:Hx.
    + destruct (star_loop c k g s (S i)) as [m'|] eqn:Hs.
      * injection H as <-. destruct (IH _ Hs) as (p & q & -> & Hp & Hk).
        exists (x :: p), q. simpl. rewrite Hx, Hp.
        rewrite Nat.add_succ_r. auto.
      * exists [], (x :: s). simpl. rewrite Nat.add_0_r. auto.
    + exists [], (x :: s). simpl. rewrite Nat.add_0_r. auto.
Qed.

(** The longest alternative comes first: when the star succeeds after a
    prefix of the class has been passed, it succeeds the same way from the
    start of that prefix. *)
Lemma star_loop_prefix (c : cls) (k : kont) (g : caps) (p q : str) (i : nat)
  (m : caps) :
  forallb (in_cls c) p = true ->
  star_loop c k g q (i + length p) = Some m ->
  star_loop c k g (p ++ q) i = Some m.
Proof.
  revert i. induction p as [|x p IH]; intros i Hp H; simpl in *.
  - now rewrite Nat.add_0_r in H.
  - apply andb_prop in Hp as [Hx Hp]. rewrite Hx.
    rewrite (IH (S i) Hp); [reflexivity|].
    now rewrite Nat.add_succ_r in H.
Qed.

(** A literal consumes exactly its own text. *)
Lemma run_Lit (l s : str) (i : nat) (g : caps) (k : kont) :
  run (Lit l) i (l ++ s) g k = k (i + length l) s g.
Proof.
  revert i. induction l as [|x l IH]; intros i; simpl.
  - now rewrite Nat.add_0_r.
  - rewrite N.eqb_refl. unfold Lit in IH. rewrite IH.
    now rewrite Nat.add_succ_r.
Qed.

Lemma run_Lit_sound (l s : str) (i : nat) (g : caps) (k : kont) (m : caps) :
  run (Lit l) i s g k = Some m ->
  exists s', s = l ++ s' /\ k (i + length l) s' g = Some m.
Proof.
  revert i s. induction l as [|x l IH]; intros i s H; simpl in H.
  - exists s. now rewrite Nat.add_0_r.
  - destruct s as [|y s]; [discriminate|]. simpl in H.
    destruct (N.eqb_spec y x) as [->|]; [|discriminate].
    destruct (IH _ _ H) as (s' & -> & Hk). exists s'.
    simpl. now rewrite Nat.add_succ_r.
Qed.

(** Slices of a text assembled from pieces. *)
Lemma slice_prefix (a b : str) : slice (a ++ b) 0 (length a) = a.
Proof.
  unfold slice. simpl. rewrite Nat.sub_0_r.
  rewrite firstn_app, Nat.sub_diag, firstn_all. simpl. apply app_nil_r.
Qed.

Lemma slice_middle (a b c : str) :
  slice (a ++ b ++ c) (length a) (length a + length b) = b.
Proof.
  unfold slice. rewrite skipn_app, skipn_all, Nat.sub_diag. simpl.
  replace (length a + length b - length a) with (length b) by lia.
  rewrite firstn_app, Nat.sub_diag, firstn_all. simpl. apply app_nil_r.
Qed.

Lemma slice_middle_eq (a b c : str) (i j : nat) :
  i = length a -> j = length a + length b -> slice (a ++ b ++ c) i j = b.
Proof. intros -> ->. apply slice_middle. Qed.

(** Two ways of cutting one text at a separator agree as soon as the
    separator occurs in neither left part. *)
Lemma cut_at_first (P : char -> bool) (x : char) (p p' a a' : str) :
  forallb P p = true -> forallb P p' = true -> P x = false ->
  p ++ x :: a = p' ++ x :: a' -> p = p' /\ a = a'.
Proof.
  intros Hp Hp' Hx. revert p' Hp'.
  induction p as [|y p IH]; intros [|y' p'] Hp' E; simpl in *.
  - injection E as ->. auto.
  - injection E as <- _. apply andb_prop in Hp' as [Hy _]. congruence.
  - injection E as -> _. apply andb_prop in Hp as [Hy _]. congruence.
  - injection E as -> E. apply andb_prop in Hp as [_ Hp].
    apply andb_prop in Hp' as [_ Hp'].
    destruct (IH Hp _ Hp' E) as [-> ->]. auto.
Qed.

Lemma cut_at_last (P : char -> bool) (x : char) (p p' a a' : str) :
  forallb P a = true -> forallb P a' = true -> P x = false ->
  p ++ x :: a = p' ++ x :: a' -> p = p' /\ a = a'.
Proof.
  intros Ha Ha' Hx E.
  assert (E' : rev a ++ x :: rev p = rev a' ++ x :: rev p').
  { apply (f_equal (@rev char)) in E. rewrite !rev_app_distr in E.
    simpl in E. now rewrite <- !app_assoc in E. }
  apply (cut_at_first P) in E'; try assumption.
  - destruct E' as [Ea Ep]. split.
    + now rewrite <- (rev_involutive p), Ep, rev_involutive.
    + now rewrite <- (rev_involutive a), Ea, rev_involutive.
  - rewrite forallb_forall in *. intros y Hy. apply Ha. now apply in_rev.
  - rewrite forallb_forall in *. intros y Hy. apply Ha'. now apply in_rev.
Qed.

End ReFacts.

(** ** Facts about clean_json.py *)
Module CleanJsonFacts.
Import Re ReFacts CleanJson.

(** *** The loop *)

(** With enough fuel the loop leaves by its test, having put out the
    characters of the indices from [i] on. *)
Lemma while_loop_run (content : str) (fuel i : nat) (fixed : str) :
  length content - i <= fuel ->
  while_loop fuel content i fixed =
  (Nat.max i (length content),
   fixed ++ concat (map (emitted content) (seq i (length content - i)))).
Proof.
  revert i fixed. induction fuel as [|fuel IH]; intros i fixed Hf; simpl.
  - replace (length content - i) with 0 by lia. simpl.
    rewrite app_nil_r. f_equal. lia.
  - destruct (Nat.ltb_spec i (length content)) as [Hi|Hi].
    + unfold loop_body. rewrite IH by lia.
      replace (length content - i) with (S (length content - (i + 1))) by lia.
      simpl. rewrite Nat.add_1_r. f_equal; [lia|].
      rewrite app_assoc. f_equal.
      unfold emitted.
      destruct (nth i content 0%N =? QUOTE)%N eqn:Hq; [|reflexivity].
      apply N.eqb_eq in Hq.
      destruct ((0 <? i) && (nth (i - 1) content 0 =? BACKSLASH)%N);
        now rewrite ?Hq.
    + replace (length content - i) with 0 by lia. simpl.
      rewrite app_nil_r. f_equal. lia.
Qed.

Lemma while_loop_exit (content : str) :
  while_loop (length content) content 0 [] =
  (length content, escape_quotes content).
Proof.
  unfold escape_quotes. rewrite while_loop_run by lia. reflexivity.
Qed.

(** More fuel changes nothing. *)
Lemma while_loop_fuel (content : str) (fuel : nat) :
  length content <= fuel ->
  while_loop fuel content 0 [] = while_loop (length content) content 0 [].
Proof.
  intros H. rewrite !while_loop_run by lia. reflexivity.
Qed.

Lemma escape_quotes_rewritten (content : str) :
  escape_quotes content = rewritten content.
Proof.
  unfold escape_quotes, rewritten. rewrite while_loop_run by lia.
  simpl. now rewrite Nat.sub_0_r.
Qed.

Lemma emitted_emit (content : str) (i : nat) :
  emitted content i = emit (prev_at content i) (nth i content 0%N).
Proof.
  unfold emitted, emit, prev_at, is_backslash.
  destruct (nth i content 0%N =? QUOTE)%N; [|reflexivity].
  now destruct (0 <? i).
Qed.

Lemma rewritten_from (pre rest : str) :
  concat (map (emitted (pre ++ rest)) (seq (length pre) (length rest))) =
  escape_from (prev_at (pre ++ rest) (length pre)) rest.
Proof.
  revert pre. induction rest as [|c rest IH]; intros pre; [reflexivity|].
  simpl. rewrite emitted_emit, nth_middle. f_equal.
  specialize (IH (pre ++ [c])). rewrite <- app_assoc in IH. simpl in IH.
  rewrite length_app, Nat.add_1_r in IH. rewrite IH. f_equal.
  unfold prev_at. simpl. now rewrite Nat.sub_0_r, nth_middle.
Qed.

Lemma escape_quotes_from (content : str) :
  escape_quotes content = escape_from None content.
Proof.
  rewrite escape_quotes_rewritten. apply (rewritten_from [] content).
Qed.

(** Text whose quotes are all escaped goes through the scan unchanged. *)
Lemma escape_from_fixed (prev : option char) (s : str) :
  escaped_from prev s = true -> escape_from prev s = s.
Proof.
  revert prev. induction s as [|c s IH]; intros prev H; [reflexivity|].
  simpl in *. apply andb_prop in H as [Hc Hs]. rewrite (IH _ Hs).
  unfold emit. destruct (N.eqb_spec c QUOTE) as [->|]; [|reflexivity].
  now rewrite Hc.
Qed.

(** The scan leaves no quote without a backslash before it. *)
Lemma escaped_from_app (prev : option char) (a b : str) :
  escaped_from prev (a ++ b) =
  escaped_from prev a
  && escaped_from (match rev a with [] => prev | x :: _ => Some x end) b.
Proof.
  revert prev. induction a as [|c a IH]; intros prev; [reflexivity|].
  simpl. rewrite IH, andb_assoc. f_equal. f_equal.
  destruct (rev a) eqn:E; [reflexivity|]. reflexivity.
Qed.

Lemma escape_from_escaped (prev : option char) (s : str) :
  escaped_from prev (escape_from prev s) = true.
Proof.
  revert prev. induction s as [|c s IH]; intros prev; [reflexivity|].
  simpl. rewrite escaped_from_app. unfold emit.
  destruct (N.eqb_spec c QUOTE) as [->|Hc].
  - destruct (is_backslash prev) eqn:Hp; simpl; rewrite ?Hp; apply IH.
  - simpl. apply N.eqb_neq in Hc. rewrite Hc. apply IH.
Qed.

Lemma escape_from_idem (s : str) :
  escape_from None (escape_from None s) = escape_from None s.
Proof. apply escape_from_fixed, escape_from_escaped. Qed.

Lemma escape_from_no_newline (prev : option char) (s : str) :
  no_newline s = true -> no_newline (escape_from prev s) = true.
Proof.
  unfold no_newline. revert prev.
  induction s as [|c s IH]; intros prev H; [reflexivity|].
  simpl in *. apply andb_prop in H as [Hc Hs].
  rewrite forallb_app, (IH _ Hs), andb_true_r. unfold emit.
  destruct (c =? QUOTE)%N; [|simpl; now rewrite Hc].
  now destruct (is_backslash prev).
Qed.

(** The two readings of ``every quote is escaped'' agree. *)
Lemma escaped_from_index (prev : option char) (s : str) :
  escaped_from prev s = true ->
  forall i, i < length s -> nth i s 0%N = QUOTE ->
    match i with
    | 0 => is_backslash prev = true
    | S j => nth j s 0%N = BACKSLASH
    end.
Proof.
  revert prev. induction s as [|c s IH]; intros prev H i Hi Hq.
  - simpl in Hi. lia.
  - simpl in H. apply andb_prop in H as [Hc Hs]. destruct i as [|i].
    + simpl in Hq. subst c. exact Hc.
    + simpl in Hi, Hq. apply Nat.succ_lt_mono in Hi.
      specialize (IH _ Hs i Hi Hq). destruct i as [|i]; simpl.
      * simpl in IH. now apply N.eqb_eq.
      * exact IH.
Qed.

Lemma escaped_quotes_escaped (s : str) :
  escaped_from None s = true -> quotes_escaped s.
Proof.
  intros H i Hi Hq. pose proof (escaped_from_index None s H Hi Hq) as P.
  destruct i as [|i]; [discriminate|].
  simpl. rewrite Nat.sub_0_r. split; [lia|exact P].
Qed.

Lemma quotes_escaped_escaped (s : str) :
  quotes_escaped s -> escaped_from None s = true.
Proof.
  intros H.
  assert (G : forall pre rest, s = pre ++ rest ->
            escaped_from (prev_at s (length pre)) rest = true).
  { intros pre rest. revert pre.
    induction rest as [|c rest IH]; intros pre E; [reflexivity|].
    simpl. apply andb_true_intro. split.
    - destruct (N.eqb_spec c QUOTE) as [->|]; [|reflexivity].
      destruct (H (length pre)) as [Hpos Hb].
      + subst s. rewrite length_app. simpl. lia.
      + subst s. apply nth_middle.
      + unfold prev_at, is_backslash.
        destruct (Nat.ltb_spec 0 (length pre)); [|lia].
        now apply N.eqb_eq.
    - specialize (IH (pre ++ [c])). rewrite <- app_assoc in IH.
      specialize (IH E). rewrite length_app, Nat.add_1_r in IH.
      replace (Some c) with (prev_at s (S (length pre))); [exact IH|].
      unfold prev_at. simpl. rewrite Nat.sub_0_r. subst s.
      now rewrite nth_middle. }
  apply (G [] s eq_refl).
Qed.

(** *** The two patterns *)

Lemma run_pattern (k : key) (line : str) :
  run (pattern k) 0 line [] kfin = star_loop Space (k_key k) [] line 0.
Proof. reflexivity. Qed.

Lemma run_closing (i : nat) (s : str) (g : caps) :
  run tail_re i s g kfin =
  match closing s with
  | Some sfx => Some ((3, (S i, S i + length sfx)) :: g)
  | None => None
  end.
Proof.
  destruct s as [|q rest]; [reflexivity|]. simpl.
  destruct (q =? QUOTE)%N; [|reflexivity].
  destruct rest as [|c [|n [|x rest]]]; simpl.
  - now rewrite Nat.add_0_r.
  - destruct (c =? COMMA)%N; simpl.
    + now rewrite Nat.add_1_r.
    + destruct (c =? NEWLINE)%N; [now rewrite Nat.add_0_r|reflexivity].
  - destruct (c =? COMMA)%N; simpl; [|reflexivity].
    destruct (n =? NEWLINE)%N; [now rewrite Nat.add_1_r|reflexivity].
  - destruct (c =? COMMA)%N; reflexivity.
Qed.

Lemma closing_sound (s sfx : str) :
  closing s = Some sfx ->
  exists t, s = QUOTE :: sfx ++ t
            /\ opt_comma sfx = true /\ opt_newline t = true.
Proof.
  destruct s as [|q rest]; [discriminate|]. simpl.
  destruct (N.eqb_spec q QUOTE) as [->|]; [|discriminate].
  destruct rest as [|c [|n [|x rest]]]; simpl.
  - intros [= <-]. now exists [].
  - destruct (N.eqb_spec c COMMA) as [->|].
    + intros [= <-]. now exists [].
    + destruct (N.eqb_spec c NEWLINE) as [->|]; [|discriminate].
      intros [= <-]. now exists [NEWLINE].
  - destruct (N.eqb_spec c COMMA) as [->|]; [|discriminate].
    destruct (N.eqb_spec n NEWLINE) as [->|]; [|discriminate].
    intros [= <-]. now exists [NEWLINE].
  - discriminate.
Qed.

Lemma closing_complete (sfx t : str) :
  opt_comma sfx = true -> opt_newline t = true ->
  closing (QUOTE :: sfx ++ t) = Some sfx.
Proof.
  destruct sfx as [|c [|? ?]]; [| |discriminate];
    (destruct t as [|n [|? ?]]; [| |discriminate]); simpl; intros Hc Hn;
    try reflexivity.
  - apply N.eqb_eq in Hn as ->. reflexivity.
  - now rewrite Hc.
  - now rewrite Hc, Hn.
Qed.

(** No closing text starts inside what may follow the closing quote, so the
    greedy content cannot reach further than the last quote. *)
Lemma no_later_closing (a : nat) (sfx t : str) (g : caps) (i : nat) :
  opt_comma sfx = true -> opt_newline t = true ->
  star_loop Dot (k_close a) g (sfx ++ t) i = None.
Proof.
  destruct sfx as [|c [|? ?]]; [| |discriminate];
    (destruct t as [|n [|? ?]]; [| |discriminate]); simpl; intros Hc Hn;
    try reflexivity.
  - apply N.eqb_eq in Hn as ->. reflexivity.
  - apply N.eqb_eq in Hc as ->. reflexivity.
  - apply N.eqb_eq in Hc as ->. apply N.eqb_eq in Hn as ->. reflexivity.
Qed.

Lemma run_kv (k : key) (w c sfx t : str) :
  all_space w = true -> no_newline c = true ->
  opt_comma sfx = true -> opt_newline t = true ->
  run (pattern k) 0 (w ++ key_open k ++ c ++ QUOTE :: sfx ++ t) [] kfin =
  Some (spans_kv k w c sfx).
Proof.
  intros Hw Hc Hs Ht. rewrite run_pattern.
  apply star_loop_prefix; [exact Hw|].
  change (k_key k (0 + length w) (key_open k ++ c ++ QUOTE :: sfx ++ t) [] =
          Some (spans_kv k w c sfx)).
  unfold k_key. rewrite run_Lit. unfold k_content.
  apply star_loop_prefix; [exact Hc|].
  simpl star_loop. rewrite no_later_closing by assumption.
  unfold k_close. rewrite run_closing, closing_complete by assumption.
  reflexivity.
Qed.

Lemma run_kv_sound (k : key) (line : str) (g : caps) :
  run (pattern k) 0 line [] kfin = Some g ->
  exists w c sfx t,
    all_space w = true /\ no_newline c = true /\
    opt_comma sfx = true /\ opt_newline t = true /\
    line = w ++ key_open k ++ c ++ QUOTE :: sfx ++ t.
Proof.
  rewrite run_pattern. intros H.
  apply star_loop_sound in H as (w & q & -> & Hw & H).
  unfold k_key in H. apply run_Lit_sound in H as (r & -> & H).
  unfold k_content in H.
  apply star_loop_sound in H as (c & q & -> & Hc & H).
  unfold k_close in H. rewrite run_closing in H.
  destruct (closing q) as [sfx|] eqn:Hq; [|discriminate].
  apply closing_sound in Hq as (t & -> & Hs & Ht).
  now exists w, c, sfx, t.
Qed.

(** *** [re.match] on lines of the designated shape *)

Lemma re_match_kv (k : key) (w c sfx t : str) :
  all_space w = true -> no_newline c = true ->
  opt_comma sfx = true -> opt_newline t = true ->
  re_match (pattern k) (w ++ key_open k ++ c ++ QUOTE :: sfx ++ t) =
  Some (match_kv k w c sfx t).
Proof.
  intros Hw Hc Hs Ht. unfold re_match.
  change (fun (_ : nat) (_ : str) (g : caps) => Some g) with kfin.
  now rewrite run_kv.
Qed.

Lemma re_match_sound (k : key) (line : str) (m : Match) :
  re_match (pattern k) line = Some m ->
  exists w c sfx t,
    all_space w = true /\ no_newline c = true /\
    opt_comma sfx = true /\ opt_newline t = true /\
    line = w ++ key_open k ++ c ++ QUOTE :: sfx ++ t /\
    m = match_kv k w c sfx t.
Proof.
  intros H. pose proof H as H'. unfold re_match in H'.
  change (fun (_ : nat) (_ : str) (g : caps) => Some g) with kfin in H'.
  destruct (run (pattern k) 0 line [] kfin) as [g|] eqn:Hr; [|discriminate].
  apply run_kv_sound in Hr as (w & c & sfx & t & Hw & Hc & Hs & Ht & ->).
  exists w, c, sfx, t. repeat (split; [assumption|]). split; [reflexivity|].
  rewrite re_match_kv in H by assumption. now injection H.
Qed.

Lemma group1_kv (k : key) (w c sfx t : str) :
  group (match_kv k w c sfx t) 1 = w.
Proof. unfold group. simpl. apply slice_prefix. Qed.

Lemma group2_kv (k : key) (w c sfx t : str) :
  group (match_kv k w c sfx t) 2 = c.
Proof.
  unfold group, match_kv, spans_kv. generalize (key_open k). intros ko.
  simpl. rewrite <- length_app, (app_assoc w). apply slice_middle.
Qed.

Lemma group3_kv (k : key) (w c sfx t : str) :
  group (match_kv k w c sfx t) 3 = sfx.
Proof.
  unfold group, match_kv, spans_kv. generalize (key_open k). intros ko.
  simpl.
  replace (w ++ ko ++ c ++ QUOTE :: sfx ++ t)
    with ((w ++ ko ++ c ++ [QUOTE]) ++ sfx ++ t)
    by (now rewrite <- !app_assoc).
  apply slice_middle_eq; rewrite !length_app; simpl; lia.
Qed.

Lemma rebuild_kv (k : key) (w c sfx t : str) :
  rebuild k (match_kv k w c sfx t) = kv_line k w (escape_quotes c) sfx.
Proof.
  unfold rebuild. now rewrite group1_kv, group2_kv, group3_kv.
Qed.

(** *** A line has its shape in one way only *)

Lemma all_space_not_quote (w : str) :
  all_space w = true -> forallb not_quote w = true.
Proof.
  unfold all_space. rewrite !forallb_forall. intros H x Hx.
  specialize (H x Hx). unfold not_quote.
  destruct (N.eqb_spec x QUOTE) as [->|]; [discriminate|reflexivity].
Qed.

Lemma after_quote_not_quote (sfx t : str) :
  opt_comma sfx = true -> opt_newline t = true ->
  forallb not_quote (sfx ++ t) = true.
Proof.
  destruct sfx as [|c [|? ?]]; [| |discriminate];
    (destruct t as [|n [|? ?]]; [| |discriminate]); simpl; intros Hc Hn;
    try reflexivity;
    repeat match goal with
           | H : (_ =? _)%N = true |- _ => apply N.eqb_eq in H; subst
           end; reflexivity.
Qed.

Lemma kv_unique (k k' : key) (w w' c c' r r' : str) :
  all_space w = true -> all_space w' = true ->
  forallb not_quote r = true -> forallb not_quote r' = true ->
  w ++ key_open k ++ c ++ QUOTE :: r = w' ++ key_open k' ++ c' ++ QUOTE :: r' ->
  k = k' /\ w = w' /\ c = c' /\ r = r'.
Proof.
  intros Hw Hw' Hr Hr' E.
  apply all_space_not_quote in Hw, Hw'.
  change (key_open k) with (QUOTE :: key_name k ++ QUOTE :: lit ": " ++ [QUOTE])
    in E.
  change (key_open k') with
    (QUOTE :: key_name k' ++ QUOTE :: lit ": " ++ [QUOTE]) in E.
  simpl in E.
  apply (cut_at_first not_quote) in E as [-> E]; try assumption;
    [|reflexivity].
  assert (Hk : k = k') by (destruct k, k'; simpl in E; congruence).
  subst k'. split; [reflexivity|]. split; [reflexivity|].
  apply app_inv_head in E.
  now apply (cut_at_last not_quote) in E.
Qed.

(** The pattern of one key finds nothing on a line of the other key, and
    nothing when the content holds a newline. *)
Lemma re_match_kv_inv (k k' : key) (w c sfx t : str) (m : Match) :
  all_space w = true -> opt_comma sfx = true -> opt_newline t = true ->
  re_match (pattern k') (w ++ key_open k ++ c ++ QUOTE :: sfx ++ t) = Some m ->
  k' = k /\ no_newline c = true.
Proof.
  intros Hw Hs Ht H.
  apply re_match_sound in H
    as (w' & c' & sfx' & t' & Hw' & Hc' & Hs' & Ht' & E & _).
  apply kv_unique in E as (-> & _ & -> & _);
    auto using after_quote_not_quote.
Qed.

Lemma designated_kv (k : key) (w c sfx t : str) :
  all_space w = true -> no_newline c = true ->
  opt_comma sfx = true -> opt_newline t = true ->
  designated (w ++ key_open k ++ c ++ QUOTE :: sfx ++ t) =
  Some (k, match_kv k w c sfx t).
Proof.
  intros Hw Hc Hs Ht. unfold designated. destruct k.
  - now rewrite re_match_kv.
  - destruct (re_match (pattern F) _) as [m|] eqn:HF.
    + apply re_match_kv_inv in HF as [[=] _]; assumption.
    + now rewrite re_match_kv.
Qed.

Lemma designated_sound (line : str) (k : key) (m : Match) :
  designated line = Some (k, m) ->
  exists w c sfx t,
    all_space w = true /\ no_newline c = true /\
    opt_comma sfx = true /\ opt_newline t = true /\
    line = w ++ key_open k ++ c ++ QUOTE :: sfx ++ t /\
    m = match_kv k w c sfx t.
Proof.
  unfold designated. intros H.
  destruct (re_match (pattern F) line) as [mf|] eqn:HF.
  - injection H as <- <-. now apply re_match_sound.
  - destruct (re_match (pattern B) line) as [mb|] eqn:HB; [|discriminate].
    injection H as <- <-. now apply re_match_sound.
Qed.

Lemma fix_line_designated (line : str) :
  fix_line line =
  match designated line with
  | Some (k, m) => rebuild k m
  | None => line
  end.
Proof.
  unfold fix_line, designated.
  destruct (re_match (pattern F) line); [reflexivity|].
  now destruct (re_match (pattern B) line).
Qed.

(** What [fix_line] does to a line of the designated shape; a final newline
    after it, which [$] tolerates, is not put back. *)
Lemma fix_line_kv (k : key) (w c sfx t : str) :
  all_space w = true -> no_newline c = true ->
  opt_comma sfx = true -> opt_newline t = true ->
  fix_line (w ++ key_open k ++ c ++ QUOTE :: sfx ++ t) =
  kv_line k w (escape_quotes c) sfx.
Proof.
  intros Hw Hc Hs Ht.
  now rewrite fix_line_designated, designated_kv, rebuild_kv.
Qed.

Lemma kv_line_nil (k : key) (w c s : str) :
  kv_line k w c s = w ++ key_open k ++ c ++ QUOTE :: s ++ [].
Proof. unfold kv_line. now rewrite app_nil_r. Qed.

Lemma re_match_designated (k : key) (line : str) (m : Match) :
  re_match (pattern k) line = Some m -> designated line = Some (k, m).
Proof.
  intros H.
  apply re_match_sound in H
    as (w & c & sfx & t & Hw & Hc & Hs & Ht & -> & ->).
  now apply designated_kv.
Qed.

Lemma escape_quotes_idem (c : str) :
  escape_quotes (escape_quotes c) = escape_quotes c.
Proof. rewrite !escape_quotes_from. apply escape_from_idem. Qed.

Lemma escape_quotes_no_newline (c : str) :
  no_newline c = true -> no_newline (escape_quotes c) = true.
Proof. rewrite escape_quotes_from. apply escape_from_no_newline. Qed.

Lemma escape_quotes_escaped (c : str) : quotes_escaped (escape_quotes c).
Proof.
  rewrite escape_quotes_from.
  apply escaped_quotes_escaped, escape_from_escaped.
Qed.

Lemma last_index_from_none (x : char) (i : nat) (s : str) (acc : option nat) :
  forallb (fun c => negb (c =? x)%N) s = true ->
  last_index_from x i s acc = acc.
Proof.
  revert i acc. induction s as [|c s IH]; intros i acc H; [reflexivity|].
  simpl in *. apply andb_prop in H as [Hc Hs].
  apply negb_true_iff in Hc. rewrite Hc. now apply IH.
Qed.

Lemma last_index_from_last (x : char) (i : nat) (pre r : str)
  (acc : option nat) :
  forallb (fun c => negb (c =? x)%N) r = true ->
  last_index_from x i (pre ++ x :: r) acc = Some (i + length pre).
Proof.
  intros Hr. revert i acc.
  induction pre as [|c pre IH]; intros i acc; simpl.
  - rewrite N.eqb_refl, last_index_from_none by assumption.
    now rewrite Nat.add_0_r.
  - rewrite IH. f_equal. lia.
Qed.

Lemma opt_comma_not_quote (s : str) :
  opt_comma s = true -> forallb not_quote s = true.
Proof.
  intros H. rewrite <- (app_nil_r s). now apply after_quote_not_quote.
Qed.

Lemma no_newline_app (a b : str) :
  no_newline (a ++ b) = no_newline a && no_newline b.
Proof. apply forallb_app. Qed.

(** A line without newline that [$] accepts ends where the match ends. *)
Lemma opt_newline_line (t : str) :
  opt_newline t = true -> no_newline t = true -> t = [].
Proof.
  destruct t as [|c [|? ?]]; [reflexivity| |discriminate]. simpl.
  intros ->. discriminate.
Qed.

(** What [fix_line] does to a line assembled from whitespace, a key, any
    content and an optional comma: a content with a newline in it keeps the
    patterns from matching. *)
Lemma fix_line_kv_any (k : key) (w c s : str) :
  all_space w = true -> opt_comma s = true ->
  fix_line (kv_line k w c s) =
  kv_line k w (if no_newline c then escape_quotes c else c) s.
Proof.
  intros Hw Hs. destruct (no_newline c) eqn:Hc.
  - rewrite kv_line_nil. now apply fix_line_kv.
  - unfold fix_line. rewrite kv_line_nil.
    destruct (re_match (pattern F) _) as [m|] eqn:HF.
    { apply re_match_kv_inv in HF as [_ HF]; auto. congruence. }
    destruct (re_match (pattern B) _) as [m|] eqn:HB.
    { apply re_match_kv_inv in HB as [_ HB]; auto. congruence. }
    reflexivity.
Qed.

(** A text that ends in a newline after a line of the shape is not a line:
    [$] accepts it and the newline is not put back. *)
Lemma fix_line_final_newline (k : key) (w c s : str) :
  all_space w = true -> no_newline c = true -> opt_comma s = true ->
  fix_line (kv_line k w c s ++ [NEWLINE]) = kv_line k w (escape_quotes c) s.
Proof.
  intros Hw Hc Hs.
  replace (kv_line k w c s ++ [NEWLINE])
    with (w ++ key_open k ++ c ++ QUOTE :: s ++ [NEWLINE])
    by (unfold kv_line; now rewrite <- !app_assoc).
  now apply fix_line_kv.
Qed.

(** A text that is not of the shape is found by neither pattern. *)
Lemma designated_none (line : str) :
  (forall k w c sfx t,
      all_space w = true -> no_newline c = true ->
      opt_comma sfx = true -> opt_newline t = true ->
      line <> w ++ key_open k ++ c ++ QUOTE :: sfx ++ t) ->
  designated line = None.
Proof.
  intros H. destruct (designated line) as [[k m]|] eqn:D; [|reflexivity].
  apply designated_sound in D
    as (w & c & sfx & t & Hw & Hc & Hs & Ht & E & _).
  now destruct (H k w c sfx t).
Qed.

(** *** The matcher and [fix_line] on a few texts *)

(** The content reaches the last quote, past a quote and a comma. *)
Example content_is_greedy :
  option_map (fun m => group m 2)
    (re_match (pattern F) (key_open F ++ lit "a" ++ [QUOTE; COMMA; QUOTE])) =
  Some (lit "a" ++ [QUOTE; COMMA]).
Proof. reflexivity. Qed.

(** Nothing but one comma may follow the closing quote. *)
Example two_commas_no_match :
  re_match (pattern F) (key_open F ++ lit "a" ++ [QUOTE; COMMA; COMMA]) = None.
Proof. reflexivity. Qed.

(** A no-break space and a line separator are whitespace; a zero width space
    is not. *)
Example unicode_indentation :
  option_map (fun m => group m 1)
    (re_match (pattern B)
       ([160; 8232]%N ++ key_open B ++ lit "q" ++ [QUOTE])) =
  Some [160; 8232]%N
  /\ re_match (pattern B) ([8203]%N ++ key_open B ++ lit "q" ++ [QUOTE])
     = None.
Proof. split; reflexivity. Qed.

(** A line of key b without inner quotes comes back as it is. *)
Example no_inner_quotes :
  fix_line (kv_line B (lit "  ") (lit "no inner quotes here") []) =
  kv_line B (lit "  ") (lit "no inner quotes here") [].
Proof. reflexivity. Qed.

(** A backslash before the closing quote stays in the content, and the line
    comes back as it is. *)
Example final_backslash :
  fix_line (kv_line F [] (lit "a" ++ [BACKSLASH]) [COMMA]) =
  kv_line F [] (lit "a" ++ [BACKSLASH]) [COMMA].
Proof. reflexivity. Qed.

(** *** The lines that [process_file] hands to [fix_line] *)

Lemma lstrip_newlines_none (s : str) :
  no_newline s = true -> lstrip_newlines s = s.
Proof.
  destruct s as [|c s]; [reflexivity|]. simpl. intros H.
  apply andb_prop in H as [Hc _]. apply negb_true_iff in Hc. now rewrite Hc.
Qed.

Lemma forallb_rev (A : Type) (f : A -> bool) (l : list A) :
  forallb f (rev l) = forallb f l.
Proof.
  induction l as [|a l IH]; [reflexivity|]. simpl.
  rewrite forallb_app, IH. simpl. rewrite andb_true_r. apply andb_comm.
Qed.

Lemma no_newline_rev (s : str) : no_newline (rev s) = no_newline s.
Proof. apply forallb_rev. Qed.

Lemma rstrip_newlines_line (body : str) :
  no_newline body = true ->
  rstrip_newlines body = body /\ rstrip_newlines (body ++ [NEWLINE]) = body.
Proof.
  intros H. unfold rstrip_newlines. rewrite rev_app_distr. simpl.
  rewrite lstrip_newlines_none by now rewrite no_newline_rev.
  now rewrite rev_involutive.
Qed.

Lemma split_lines_lines (cur s line : str) :
  no_newline cur = true -> In line (split_lines cur s) ->
  exists body, no_newline body = true
               /\ (line = body \/ line = body ++ [NEWLINE]).
Proof.
  revert cur. induction s as [|c s IH]; intros cur Hc Hin; simpl in Hin.
  - destruct cur; [contradiction|]. destruct Hin as [<-|[]]. eauto.
  - destruct (N.eqb_spec c NEWLINE) as [->|Hn].
    + destruct Hin as [<-|Hin]; [eauto|]. now apply (IH []).
    + apply (IH (cur ++ [c])); [|assumption].
      rewrite no_newline_app, Hc. simpl.
      apply N.eqb_neq in Hn. now rewrite Hn.
Qed.

(** Every line read from a file reaches [fix_line] without a newline. *)
Lemma read_lines_no_newline (text line : str) :
  In line (split_lines [] (universal_newlines text)) ->
  no_newline (rstrip_newlines line) = true.
Proof.
  intros Hin. apply split_lines_lines in Hin as (body & Hb & [->| ->]);
    [| |reflexivity].
  - now rewrite (proj1 (rstrip_newlines_line body Hb)).
  - now rewrite (proj2 (rstrip_newlines_line body Hb)).
Qed.

Lemma quotes_escaped_head (s : str) :
  quotes_escaped s -> hd_error s <> Some QUOTE.
Proof.
  intros H. destruct s as [|c s]; [discriminate|]. simpl. intros [= ->].
  destruct (H 0) as [Hpos _]; simpl; [lia|reflexivity|lia].
Qed.

End CleanJsonFacts.

(** ** The properties of [fix_line] *)
Module CleanJsonSpec.
Import Re ReFacts Json CleanJson CleanJsonFacts.

(** C1. On a line that one of the two patterns matches, the content (group
    2) is rewritten by one pass from left to right: the output is, index
    after index, a quote as it is when the character before it in the
    content is a backslash, a backslash and a quote for any other quote, and
    any other character as it is; indentation, key and comma are put back
    around it. *)
Theorem fix_line_scan (k : key) (line : str) (m : Match) :
  re_match (pattern k) line = Some m ->
  fix_line line =
  group m 1 ++ key_open k ++ rewritten (group m 2) ++ [QUOTE] ++ group m 3.
Proof.
  intros H. apply re_match_designated in H.
  rewrite fix_line_designated, H. unfold rebuild.
  now rewrite escape_quotes_rewritten.
Qed.

Lemma fix_line_scan_witness :
  re_match (pattern F) said_line =
    Some (match_kv F (lit "  ") said_content [COMMA] [])
  /\ fix_line said_line = kv_line F (lit "  ") said_fixed [COMMA].
Proof.
  split; [reflexivity|].
  rewrite (@fix_line_scan F said_line
             (match_kv F (lit "  ") said_content [COMMA] []));
    reflexivity.
Defined.

(** C2. On a line made of whitespace, the quoted key f or b, a colon and a
    space, a quoted content and an optional comma, the content that
    [fix_line] rewrites ends at the rightmost quote of the line, so that
    every quote inside it is escaped; the line of the example comes out with
    both inner quotes escaped, indentation and comma kept. *)
Theorem fix_line_greedy :
  (forall (k : key) (w c s : str),
      all_space w = true -> no_newline c = true -> opt_comma s = true ->
      rightmost_quote (kv_line k w c s)
        = Some (length w + length (key_open k) + length c)
      /\ (exists m, re_match (pattern k) (kv_line k w c s) = Some m
                    /\ group m 1 = w /\ group m 2 = c /\ group m 3 = s)
      /\ fix_line (kv_line k w c s) = kv_line k w (rewritten c) s)
  /\ fix_line said_line = kv_line F (lit "  ") said_fixed [COMMA].
Proof.
  split; [|reflexivity].
  intros k w c s Hw Hc Hs. split; [|split].
  - unfold rightmost_quote. rewrite kv_line_nil, app_nil_r, 2!app_assoc.
    rewrite last_index_from_last.
    + now rewrite !length_app.
    + now apply opt_comma_not_quote.
  - exists (match_kv k w c s []). rewrite kv_line_nil.
    rewrite re_match_kv by auto.
    now rewrite group1_kv, group2_kv, group3_kv.
  - rewrite kv_line_nil, fix_line_kv by auto.
    now rewrite escape_quotes_rewritten.
Qed.

Lemma fix_line_greedy_witness :
  all_space (lit "  ") = true /\ no_newline said_content = true
  /\ opt_comma [COMMA] = true
  /\ fix_line (kv_line F (lit "  ") said_content [COMMA])
     = kv_line F (lit "  ") (rewritten said_content) [COMMA].
Proof.
  repeat (split; [reflexivity|]).
  apply (proj1 fix_line_greedy F (lit "  ") said_content [COMMA]);
    reflexivity.
Defined.

(** C4. A line on which neither pattern matches is returned as it is; the
    function has no other outcome than a line. *)
Theorem fix_line_other (line : str) :
  re_match (pattern F) line = None ->
  re_match (pattern B) line = None ->
  fix_line line = line.
Proof. intros HF HB. unfold fix_line. now rewrite HF, HB. Qed.

Lemma fix_line_other_witness :
  re_match (pattern F) (lit "  {") = None
  /\ re_match (pattern B) (lit "  {") = None
  /\ fix_line (lit "  {") = lit "  {".
Proof.
  repeat (split; [reflexivity|]).
  apply (fix_line_other (lit "  {")); reflexivity.
Defined.

(** C5. A matching line whose content has every quote right after a
    backslash is returned unchanged, and repairing any line twice gives what
    repairing it once gives. *)
Theorem fix_line_idempotent :
  (forall (k : key) (line : str) (m : Match),
      no_newline line = true ->
      re_match (pattern k) line = Some m ->
      quotes_escaped (group m 2) ->
      fix_line line = line)
  /\ (forall line : str, fix_line (fix_line line) = fix_line line).
Proof.
  split.
  - intros k line m Hl H Hq.
    apply re_match_sound in H
      as (w & c & sfx & t & Hw & Hc & Hs & Ht & -> & ->).
    rewrite group2_kv in Hq.
    assert (t = []) as ->.
    { apply opt_newline_line; [assumption|].
      rewrite !no_newline_app in Hl.
      change (QUOTE :: sfx ++ t) with ([QUOTE] ++ sfx ++ t) in Hl.
      rewrite !no_newline_app in Hl.
      repeat (apply andb_prop in Hl as [_ Hl]). exact Hl. }
    rewrite fix_line_kv by auto. rewrite <- kv_line_nil.
    rewrite escape_quotes_from, escape_from_fixed; [reflexivity|].
    now apply quotes_escaped_escaped.
  - intros line. rewrite (fix_line_designated line).
    destruct (designated line) as [[k m]|] eqn:D.
    + apply designated_sound in D
        as (w & c & sfx & t & Hw & Hc & Hs & Ht & -> & ->).
      rewrite rebuild_kv, kv_line_nil.
      rewrite fix_line_kv by auto using escape_quotes_no_newline.
      now rewrite escape_quotes_idem, <- kv_line_nil.
    + now rewrite fix_line_designated, D.
Qed.

Lemma escaped_content_ok : quotes_escaped escaped_content.
Proof. apply escaped_quotes_escaped. reflexivity. Qed.

Lemma fix_line_idempotent_witness :
  no_newline escaped_line = true
  /\ re_match (pattern F) escaped_line =
       Some (match_kv F (lit "  ") escaped_content [COMMA] [])
  /\ fix_line escaped_line = escaped_line.
Proof.
  repeat (split; [reflexivity|]).
  apply (proj1 fix_line_idempotent F escaped_line
           (match_kv F (lit "  ") escaped_content [COMMA] []));
    [reflexivity|reflexivity|].
  rewrite group2_kv. exact escaped_content_ok.
Defined.

(** C8. The two keys go the same way: for whitespace [w], any content [c]
    and an optional comma [s], the outputs for the line with key f and for
    the line with key b are the same text around the key, [w] and [s] kept as
    they are. *)
Theorem fix_line_keys_alike (w c s : str) :
  all_space w = true -> opt_comma s = true ->
  exists c',
    c' = (if no_newline c then escape_quotes c else c)
    /\ fix_line (kv_line F w c s) = kv_line F w c' s
    /\ fix_line (kv_line B w c s) = kv_line B w c' s.
Proof.
  intros Hw Hs. eexists. split; [reflexivity|].
  split; now apply fix_line_kv_any.
Qed.

Lemma fix_line_keys_alike_witness :
  all_space (lit "  ") = true /\ opt_comma [COMMA] = true
  /\ fix_line (kv_line F (lit "  ") said_content [COMMA])
     = kv_line F (lit "  ") said_fixed [COMMA]
  /\ fix_line (kv_line B (lit "  ") said_content [COMMA])
     = kv_line B (lit "  ") said_fixed [COMMA].
Proof.
  destruct (@fix_line_keys_alike (lit "  ") said_content [COMMA]
              eq_refl eq_refl) as (c' & E & HF & HB).
  subst c'. split; [reflexivity|]. split; [reflexivity|].
  split; [exact HF|exact HB].
Defined.

(** C9. On a matching line, every quote in the content of the output (the
    text put between the key and the closing quote, which is also what the
    pattern finds as content on the output) comes right after a backslash;
    the content does not start with a quote. *)
Theorem fix_line_escapes (k : key) (line : str) (m : Match) :
  re_match (pattern k) line = Some m ->
  exists fixed m',
    fix_line line = group m 1 ++ key_open k ++ fixed ++ [QUOTE] ++ group m 3
    /\ re_match (pattern k) (fix_line line) = Some m'
    /\ group m' 2 = fixed
    /\ quotes_escaped fixed
    /\ hd_error fixed <> Some QUOTE.
Proof.
  intros H. pose proof (re_match_designated _ _ H) as D.
  apply re_match_sound in H
    as (w & c & sfx & t & Hw & Hc & Hs & Ht & -> & ->).
  exists (escape_quotes c), (match_kv k w (escape_quotes c) sfx []).
  rewrite fix_line_designated, D, rebuild_kv.
  rewrite group1_kv, group2_kv, group3_kv.
  split; [reflexivity|]. split.
  - rewrite kv_line_nil.
    apply re_match_kv; auto using escape_quotes_no_newline.
  - split; [reflexivity|].
    split; [apply escape_quotes_escaped|].
    apply quotes_escaped_head, escape_quotes_escaped.
Qed.

Lemma fix_line_escapes_witness :
  re_match (pattern F) said_line =
    Some (match_kv F (lit "  ") said_content [COMMA] [])
  /\ quotes_escaped said_fixed.
Proof.
  split; [reflexivity|].
  destruct (@fix_line_escapes F said_line
              (match_kv F (lit "  ") said_content [COMMA] []) eq_refl)
    as (fixed & m' & E & _ & _ & Q & _).
  assert (fixed = said_fixed) as <-; [|exact Q].
  change (fix_line said_line) with (kv_line F (lit "  ") said_fixed [COMMA])
    in E.
  rewrite group1_kv, group3_kv in E. unfold kv_line in E.
  apply app_inv_head in E. apply app_inv_head in E.
  apply app_inv_tail in E. now symmetry.
Defined.

(** C7. When the text made of the repaired lines, joined by newlines, does
    not parse, [process_file] prints the line and the column of the error
    that the parser reports, writes that text to the side file, leaves the
    other files as they are and returns: no exception leaves it. *)
Theorem process_file_parse_failure
  (json_loads : str -> JSONDecodeError + json) (json_dumps : json -> str)
  (w : World) (text : str) (e : JSONDecodeError) :
  files w input_file = Some text ->
  json_loads (repaired (split_lines [] (universal_newlines text))) = inl e ->
  exists w',
    process_file json_loads json_dumps w = (Ok tt, w')
    /\ stdout w' =
       stdout w ++
       [ lit "Reading raw_questions.json...";
         lit "Cleaning pass finished, but result is still invalid.";
         lit "Error: " ++ error_text e;
         lit "At: " ++ str_of_nat (lineno e) ++ lit ":"
           ++ str_of_nat (colno e) ]
    /\ files w' debug_file =
       Some (repaired (split_lines [] (universal_newlines text)))
    /\ (forall name, str_eqb name debug_file = false ->
                     files w' name = files w name).
Proof.
  intros Hfile Hparse.
  unfold process_file, try_except, bind, print, read_lines, loads.
  cbn [files stdout]. rewrite Hfile, Hparse.
  unfold raise, write_text. cbn [files stdout].
  eexists. split; [reflexivity|]. cbn [files stdout].
  split; [now rewrite <- !app_assoc|]. split.
  - reflexivity.
  - intros name Hn. now rewrite Hn.
Qed.

Lemma process_file_parse_failure_witness :
  files raw_world input_file = Some raw_text
  /\ rejecting_loads (repaired (split_lines [] (universal_newlines raw_text)))
     = inl no_value
  /\ fst (process_file rejecting_loads null_dumps raw_world) = Ok tt
  /\ files (snd (process_file rejecting_loads null_dumps raw_world)) debug_file
     = Some (lit "{" ++ [NEWLINE]
             ++ kv_line F (lit "  ") said_fixed [COMMA]).
Proof.
  destruct (@process_file_parse_failure rejecting_loads null_dumps raw_world
              raw_text no_value eq_refl eq_refl)
    as (w' & E & _ & D & _).
  split; [reflexivity|]. split; [reflexivity|].
  rewrite E. split; [reflexivity|]. exact D.
Defined.

End CleanJsonSpec.

(** ** Facts about fix_hints.py *)
Module FixHintsFacts.
Import Json FixHints.

Lemma str_eqb_eq (a b : str) : str_eqb a b = true <-> a = b.
Proof.
  unfold str_eqb. destruct (list_eq_dec N.eq_dec a b); split; congruence.
Qed.

Lemma strip_backticks_idem (s : str) :
  strip_backticks (strip_backticks s) = strip_backticks s.
Proof.
  unfold strip_backticks. induction s as [|c s IH]; [reflexivity|].
  simpl. destruct (negb (c =? BACKTICK)%N) eqn:E; [|exact IH].
  simpl. now rewrite E, IH.
Qed.

Lemma replace_backticks_idem (v : json) :
  replace_backticks (replace_backticks v) = replace_backticks v.
Proof. destruct v; simpl; try reflexivity. now rewrite strip_backticks_idem. Qed.

Lemma is_str_replace (v : json) : is_str (replace_backticks v) = is_str v.
Proof. now destruct v. Qed.

Lemma is_str_clean (v : json) : is_str (clean_hints v) = is_str v.
Proof. now destruct v. Qed.

Lemma clean_hints_str (v : json) : is_str v = true -> clean_hints v = v.
Proof. now destruct v. Qed.

(** *** Dicts *)

Section OnValues.
Variable f : json -> json.

Lemma dict_get_on_values (d : dict) (key : str) :
  dict_get (on_values f d) key = option_map f (dict_get d key).
Proof.
  induction d as [|[k v] d IH]; [reflexivity|]. simpl.
  now destruct (str_eqb k key).
Qed.

Lemma dict_set_on_values (d : dict) (key : str) (v : json) :
  dict_set (on_values f d) key (f v) = on_values f (dict_set d key v).
Proof.
  induction d as [|[k x] d IH]; [reflexivity|]. simpl.
  destruct (str_eqb k key); [reflexivity|]. simpl. now rewrite IH.
Qed.
End OnValues.

Lemma dict_get_set (d : dict) (key : str) (v : json) :
  dict_get (dict_set d key v) key = Some v.
Proof.
  induction d as [|[k x] d IH]; simpl.
  - now rewrite (proj2 (str_eqb_eq key key) eq_refl).
  - destruct (str_eqb k key) eqn:E; simpl; now rewrite E.
Qed.

Lemma dict_set_set (d : dict) (key : str) (v v' : json) :
  dict_set (dict_set d key v) key v' = dict_set d key v'.
Proof.
  induction d as [|[k x] d IH]; simpl.
  - now rewrite (proj2 (str_eqb_eq key key) eq_refl).
  - destruct (str_eqb k key) eqn:E; simpl; rewrite E; [reflexivity|].
    now rewrite IH.
Qed.

Lemma clean_own_hint_idem (d : dict) :
  clean_own_hint (clean_own_hint d) = clean_own_hint d.
Proof.
  unfold clean_own_hint at 2 3.
  destruct (dict_get d hint) as [v|] eqn:G.
  - destruct (is_str v) eqn:S.
    + unfold clean_own_hint. rewrite dict_get_set, is_str_replace, S.
      now rewrite dict_set_set, replace_backticks_idem.
    + unfold clean_own_hint. now rewrite G, S.
  - unfold clean_own_hint. now rewrite G.
Qed.

(** The list branch in the order of the source: the hint of the item first,
    the calls on its values after. *)
Lemma clean_item_source_order (d : dict) :
  clean_item clean_hints (JDict d) =
  JDict (map (fun kv => (fst kv, clean_hints (snd kv))) (clean_own_hint d)).
Proof.
  unfold clean_item. f_equal.
  change (map (fun kv : str * json => (fst kv, clean_hints (snd kv))))
    with (on_values clean_hints).
  unfold clean_own_hint. rewrite dict_get_on_values.
  destruct (dict_get d hint) as [v|]; [|reflexivity]. simpl.
  rewrite is_str_clean. destruct (is_str v) eqn:S; [|reflexivity].
  rewrite (clean_hints_str v S).
  rewrite <- dict_set_on_values. f_equal. symmetry.
  apply clean_hints_str. now rewrite is_str_replace.
Qed.

Lemma on_values_clean_own_hint (d : dict) :
  on_values clean_hints (clean_own_hint d) =
  clean_own_hint (on_values clean_hints d).
Proof.
  pose proof (clean_item_source_order d) as H. unfold clean_item in H.
  injection H as H. symmetry. exact H.
Qed.

(** *** What the cleaning leaves alone *)

Lemma blank_entry_hint (blank : json -> json) (k : str) (v : json) :
  str_eqb k hint = true -> is_str v = true ->
  blank_entry blank (k, v) = (k, JStr []).
Proof. intros Hk Hv. simpl. now rewrite Hk, Hv. Qed.

Lemma blank_dict_set_hint (d : dict) (v v' : json) :
  dict_get d hint = Some v -> is_str v = true -> is_str v' = true ->
  map (blank_entry blank_hints) (dict_set d hint v') =
  map (blank_entry blank_hints) d.
Proof.
  intros G S S'. induction d as [|[k x] d IH]; [discriminate|].
  simpl in G. cbn [dict_set]. destruct (str_eqb k hint) eqn:E.
  - injection G as ->. cbn [map].
    now rewrite !blank_entry_hint by assumption.
  - cbn [map]. now rewrite IH.
Qed.

Lemma blank_clean_own_hint (d : dict) :
  map (blank_entry blank_hints) (clean_own_hint d) =
  map (blank_entry blank_hints) d.
Proof.
  unfold clean_own_hint. destruct (dict_get d hint) as [v|] eqn:G;
    [|reflexivity].
  destruct (is_str v) eqn:S; [|reflexivity].
  apply blank_dict_set_hint with (v := v); try assumption.
  now rewrite is_str_replace.
Qed.

Lemma blank_clean_entry (kv : str * json) :
  blank_hints (clean_hints (snd kv)) = blank_hints (snd kv) ->
  blank_entry blank_hints (clean_entry clean_hints kv) =
  blank_entry blank_hints kv.
Proof.
  destruct kv as [k v]. simpl. intros IH.
  destruct (str_eqb k hint && is_str v) eqn:T; simpl.
  - apply andb_prop in T as [Hk Hv].
    now rewrite Hk, is_str_replace, Hv.
  - now rewrite is_str_clean, T, IH.
Qed.

Lemma blank_on_values (kv : str * json) :
  blank_hints (clean_hints (snd kv)) = blank_hints (snd kv) ->
  blank_entry blank_hints (fst kv, clean_hints (snd kv)) =
  blank_entry blank_hints kv.
Proof.
  destruct kv as [k v]. simpl. intros IH.
  now rewrite is_str_clean, IH.
Qed.

Lemma blank_clean_both (data : json) :
  blank_hints (clean_hints data) = blank_hints data
  /\ blank_hints (clean_item clean_hints data) = blank_hints data.
Proof.
  induction data as [| | | | |items IH|d IH] using json_induction;
    try (split; reflexivity).
  - split; [|reflexivity]. simpl. f_equal. rewrite map_map.
    apply map_ext_in. intros item Hin.
    rewrite Forall_forall in IH. apply (IH item Hin).
  - rewrite Forall_forall in IH. split.
    + simpl. f_equal. rewrite map_map. apply map_ext_in. intros kv Hin.
      apply blank_clean_entry, (IH kv Hin).
    + unfold clean_item. cbn [blank_hints]. f_equal.
      rewrite blank_clean_own_hint, map_map. apply map_ext_in.
      intros kv Hin. apply blank_on_values, (IH kv Hin).
Qed.

(** *** Cleaning twice *)

Lemma clean_entry_idem (kv : str * json) :
  clean_hints (clean_hints (snd kv)) = clean_hints (snd kv) ->
  clean_entry clean_hints (clean_entry clean_hints kv) =
  clean_entry clean_hints kv.
Proof.
  destruct kv as [k v]. simpl. intros IH.
  destruct (str_eqb k hint && is_str v) eqn:T; simpl.
  - apply andb_prop in T as [Hk Hv].
    now rewrite Hk, is_str_replace, Hv, replace_backticks_idem.
  - now rewrite is_str_clean, T, IH.
Qed.

Lemma clean_twice_both (data : json) :
  clean_hints (clean_hints data) = clean_hints data
  /\ clean_item clean_hints (clean_item clean_hints data) =
     clean_item clean_hints data.
Proof.
  induction data as [| | | | |items IH|d IH] using json_induction;
    try (split; reflexivity).
  - split; [|reflexivity]. simpl. f_equal. rewrite map_map.
    apply map_ext_in. intros item Hin.
    rewrite Forall_forall in IH. apply (IH item Hin).
  - rewrite Forall_forall in IH. split.
    + simpl. f_equal. rewrite map_map. apply map_ext_in. intros kv Hin.
      apply clean_entry_idem, (IH kv Hin).
    + unfold clean_item. f_equal.
      change (map (fun kv : str * json => (fst kv, clean_hints (snd kv))))
        with (on_values clean_hints).
      rewrite on_values_clean_own_hint, clean_own_hint_idem. f_equal.
      unfold on_values. rewrite map_map. apply map_ext_in. intros kv Hin.
      simpl. f_equal. apply (IH kv Hin).
Qed.

(** *** Where the cleaning reaches *)

Lemma clean_own_hint_cons (k : str) (x : json) (r : dict) :
  clean_own_hint ((k, x) :: r) =
  if str_eqb k hint
  then (k, if is_str x then replace_backticks x else x) :: r
  else (k, x) :: clean_own_hint r.
Proof.
  unfold clean_own_hint. simpl. destruct (str_eqb k hint) eqn:E.
  - destruct (is_str x); simpl; now rewrite ?E.
  - destruct (dict_get r hint) as [v|]; [|reflexivity].
    destruct (is_str v); simpl; now rewrite ?E.
Qed.

Lemma clean_entry_other (f : json -> json) (d : dict) :
  ~ In hint (map fst d) -> map (clean_entry f) d = on_values f d.
Proof.
  induction d as [|[k v] d IH]; intros H; [reflexivity|]. simpl in *.
  rewrite IH by tauto.
  destruct (str_eqb k hint) eqn:E; [|reflexivity].
  apply str_eqb_eq in E. tauto.
Qed.

(** On a dict with distinct keys, the assignment by key of the list branch
    and the entry by entry loop of the dict branch do the same. *)
Lemma clean_own_hint_entries (d : dict) :
  NoDup (map fst d) ->
  clean_own_hint (on_values clean_hints d) = map (clean_entry clean_hints) d.
Proof.
  induction d as [|[k v] d IH]; intros H; [reflexivity|].
  simpl in H. apply NoDup_cons_iff in H as [Hk Hd].
  cbn [on_values map fst snd]. rewrite clean_own_hint_cons.
  fold (on_values clean_hints d). cbn [clean_entry].
  destruct (str_eqb k hint) eqn:E.
  - apply str_eqb_eq in E. subst k.
    rewrite (clean_entry_other _ _ Hk). rewrite is_str_clean. simpl.
    destruct (is_str v) eqn:S; [|reflexivity].
    now rewrite (clean_hints_str v S).
  - simpl. now rewrite IH.
Qed.

Lemma clean_entry_ext (f g : json -> json) (kv : str * json) :
  f (snd kv) = g (snd kv) -> clean_entry f kv = clean_entry g kv.
Proof. destruct kv as [k v]. simpl. now intros ->. Qed.

Lemma fold_right_and_in (A : Type) (P : A -> Prop) (l : list A) (x : A) :
  fold_right (fun a rest => P a /\ rest) True l -> In x l -> P x.
Proof.
  induction l as [|a l IH]; simpl; [tauto|].
  intros [Ha Hl] [->|Hin]; auto.
Qed.

Lemma clean_reaches_both (data : json) :
  keys_distinct data -> no_list_in_list data = true ->
  clean_hints data = clean_everywhere data
  /\ (is_list data = false ->
      clean_item clean_hints data = clean_everywhere data).
Proof.
  induction data as [| | | | |items IH|d IH] using json_induction;
    intros K L; try (split; reflexivity).
  - split; [|discriminate]. simpl. f_equal. apply map_ext_in.
    intros item Hin. rewrite Forall_forall in IH. simpl in K, L.
    rewrite forallb_forall in L. specialize (L item Hin).
    apply andb_prop in L as [Hl Hf]. apply negb_true_iff in Hl.
    apply (IH item Hin); [|assumption|assumption].
    exact (fold_right_and_in keys_distinct items item K Hin).
  - rewrite Forall_forall in IH. simpl in K, L. destruct K as [Kd Kv].
    rewrite forallb_forall in L.
    assert (E : map (clean_entry clean_hints) d =
                map (clean_entry clean_everywhere) d).
    { apply map_ext_in. intros kv Hin. apply clean_entry_ext.
      apply (IH kv Hin); [|now apply L].
      exact (fold_right_and_in (fun kv => keys_distinct (snd kv)) d kv Kv Hin). }
    split.
    + simpl. now rewrite E.
    + intros _. unfold clean_item.
      change (map (fun kv : str * json => (fst kv, clean_hints (snd kv))))
        with (on_values clean_hints).
      rewrite clean_own_hint_entries by assumption. simpl. now rewrite E.
Qed.

(** Outside the lists that are items of lists, the cleaning is the full
    traversal. *)
Lemma clean_hints_reaches (data : json) :
  keys_distinct data -> no_list_in_list data = true ->
  clean_hints data = clean_everywhere data.
Proof. intros K L. now apply clean_reaches_both. Qed.

End FixHintsFacts.

(** ** The properties of [clean_hints] *)
Module FixHintsSpec.
Import Json FixHints FixHintsFacts.

(** C3. The claim is that the traversal reaches the hints at any depth,
    through every item of every list.  [clean_hints] goes into an item of a
    list only when the item is a dict: a list that is an item of a list is
    left as it is, with the hints below it, where the full traversal cleans
    them. *)
Theorem clean_hints_skips_nested_list :
  clean_hints nested_doc = nested_doc
  /\ clean_everywhere nested_doc = nested_cleaned
  /\ nested_cleaned <> nested_doc.
Proof. repeat split; try reflexivity. discriminate. Qed.

(** C6. The cleaning changes text values under the key hint and nothing
    else: with those texts blanked, the document after is the document
    before, keys, order, scalars and other texts included.  On the example
    the hint loses its backticks and the other text keeps its own. *)
Theorem clean_hints_frame :
  (forall data : json, blank_hints (clean_hints data) = blank_hints data)
  /\ clean_hints example_doc = example_cleaned.
Proof. split; [apply blank_clean_both|reflexivity]. Qed.

(** C10. Cleaning a cleaned document changes nothing. *)
Theorem clean_hints_idempotent (data : json) :
  clean_hints (clean_hints data) = clean_hints data.
Proof. apply clean_twice_both. Qed.

End FixHintsSpec.

(** ** Facts behind the further properties *)
Module CoverageFacts.
Import Re ReFacts Json CleanJson CleanJsonFacts FixHints FixHintsFacts.
Import FixHintsScript Coverage.

(** *** The scan *)

Lemma drop_backslashes_app (a b : str) :
  drop_backslashes (a ++ b) = drop_backslashes a ++ drop_backslashes b.
Proof. apply filter_app. Qed.

Lemma drop_backslashes_escape (prev : option char) (s : str) :
  drop_backslashes (escape_from prev s) = drop_backslashes s.
Proof.
  revert prev. induction s as [|c s IH]; intros prev; [reflexivity|].
  cbn [escape_from]. rewrite drop_backslashes_app, IH.
  change (c :: s) with ([c] ++ s). rewrite drop_backslashes_app. f_equal.
  unfold emit. destruct (N.eqb_spec c QUOTE) as [->|]; [|reflexivity].
  now destruct (is_backslash prev).
Qed.

Lemma escape_from_length (prev : option char) (s : str) :
  length (escape_from prev s) = length s + bare_quotes_from prev s.
Proof.
  revert prev. induction s as [|c s IH]; intros prev; [reflexivity|].
  cbn [escape_from bare_quotes_from]. rewrite length_app, IH. unfold emit.
  destruct (c =? QUOTE)%N; simpl; [|lia].
  destruct (is_backslash prev); simpl; lia.
Qed.

(** *** Lines *)

Lemma key_open_no_newline (k : key) : no_newline (key_open k) = true.
Proof. now destruct k. Qed.

(** The parts of a line without newline have none, and nothing follows the
    comma. *)
Lemma line_parts (k : key) (w c sfx t : str) :
  no_newline (w ++ key_open k ++ c ++ QUOTE :: sfx ++ t) = true ->
  opt_newline t = true ->
  no_newline w = true /\ no_newline sfx = true /\ t = [].
Proof.
  intros H Ht.
  change (QUOTE :: sfx ++ t) with ([QUOTE] ++ sfx ++ t) in H.
  rewrite !no_newline_app in H.
  apply andb_prop in H as [Hw H]. apply andb_prop in H as [_ H].
  apply andb_prop in H as [_ H]. apply andb_prop in H as [_ H].
  apply andb_prop in H as [Hs H]. auto using opt_newline_line.
Qed.

Lemma kv_line_no_newline (k : key) (w c s : str) :
  no_newline w = true -> no_newline c = true -> no_newline s = true ->
  no_newline (kv_line k w c s) = true.
Proof.
  intros Hw Hc Hs. unfold kv_line.
  now rewrite !no_newline_app, Hw, Hc, Hs, key_open_no_newline.
Qed.

(** What [fix_line] returns for a line, by cases. *)
Lemma fix_line_cases (line : str) :
  no_newline line = true ->
  fix_line line = line
  \/ exists k w c s,
       all_space w = true /\ no_newline w = true /\ no_newline c = true /\
       opt_comma s = true /\ no_newline s = true /\
       line = kv_line k w c s /\
       fix_line line = kv_line k w (escape_quotes c) s.
Proof.
  intros Hl. rewrite fix_line_designated.
  destruct (designated line) as [[k m]|] eqn:D; [right|now left].
  apply designated_sound in D
    as (w & c & sfx & t & Hw & Hc & Hs & Ht & -> & ->).
  destruct (line_parts _ _ _ _ _ Hl Ht) as (Hw' & Hs' & ->).
  exists k, w, c, sfx. rewrite rebuild_kv, <- kv_line_nil. auto 10.
Qed.

Lemma fix_line_no_newline (line : str) :
  no_newline line = true -> no_newline (fix_line line) = true.
Proof.
  intros Hl.
  destruct (fix_line_cases line Hl)
    as [->|(k & w & c & s & _ & Hw & Hc & _ & Hs & _ & ->)]; [assumption|].
  auto using kv_line_no_newline, escape_quotes_no_newline.
Qed.

(** *** Splitting and joining *)

Lemma split_from_app (cur p s : str) :
  no_newline p = true -> split_from cur (p ++ s) = split_from (cur ++ p) s.
Proof.
  revert cur. induction p as [|c p IH]; intros cur H; simpl.
  - now rewrite app_nil_r.
  - simpl in H. apply andb_prop in H as [Hc Hp].
    apply negb_true_iff in Hc. rewrite Hc, IH by assumption.
    now rewrite <- app_assoc.
Qed.

Lemma split_from_join (cur p : str) (ps : list str) :
  Forall (fun q => no_newline q = true) (p :: ps) ->
  split_from cur (join [NEWLINE] (p :: ps)) = (cur ++ p) :: ps.
Proof.
  revert cur p. induction ps as [|q ps IH]; intros cur p H.
  - inversion H; subst. simpl.
    rewrite <- (app_nil_r p) at 1. now rewrite split_from_app.
  - inversion H; subst.
    change (join [NEWLINE] (p :: q :: ps))
      with (p ++ [NEWLINE] ++ join [NEWLINE] (q :: ps)).
    rewrite split_from_app by assumption.
    change (split_from (cur ++ p) ([NEWLINE] ++ join [NEWLINE] (q :: ps)))
      with ((cur ++ p) :: split_from [] (join [NEWLINE] (q :: ps))).
    now rewrite (IH [] q).
Qed.

Lemma split_lines_nil (cur s : str) :
  split_lines cur s = [] -> cur = [] /\ s = [].
Proof.
  revert cur. induction s as [|c s IH]; intros cur H; simpl in H.
  - now destruct cur.
  - destruct (c =? NEWLINE)%N; [discriminate|].
    apply IH in H as [H _]. now destruct cur.
Qed.

Lemma chomp_app (a rest : str) :
  rest <> [] -> chomp (a ++ rest) = a ++ chomp rest.
Proof.
  intros H. induction a as [|x a IH]; [reflexivity|].
  simpl. rewrite <- IH. destruct (a ++ rest) eqn:E; [|reflexivity].
  apply app_eq_nil in E as [_ E]. contradiction.
Qed.

Lemma chomp_line (s : str) : no_newline s = true -> chomp s = s.
Proof.
  induction s as [|c s IH]; [reflexivity|]. simpl. intros H.
  apply andb_prop in H as [Hc Hs]. apply negb_true_iff in Hc.
  destruct s; [now rewrite Hc|]. now rewrite IH.
Qed.

(** Reading the lines, taking their newlines off and joining them gives the
    text back, less a final newline. *)
Lemma join_split_chomp (cur s : str) :
  no_newline cur = true ->
  join [NEWLINE] (map rstrip_newlines (split_lines cur s)) = chomp (cur ++ s).
Proof.
  revert cur. induction s as [|c s IH]; intros cur Hc.
  - rewrite app_nil_r. simpl. destruct cur as [|x cur]; [reflexivity|].
    simpl map. simpl join.
    rewrite (proj1 (rstrip_newlines_line _ Hc)). now rewrite chomp_line.
  - simpl split_lines. destruct (N.eqb_spec c NEWLINE) as [->|Hn].
    + simpl map. rewrite (proj2 (rstrip_newlines_line _ Hc)).
      specialize (IH [] eq_refl). simpl app in IH.
      destruct (split_lines [] s) as [|l ls] eqn:E.
      * apply split_lines_nil in E as [_ ->]. simpl.
        rewrite chomp_app by discriminate. simpl. now rewrite app_nil_r.
      * assert (s <> []) by (intros ->; discriminate).
        change (join [NEWLINE] (cur :: map rstrip_newlines (l :: ls)))
          with (cur ++ [NEWLINE]
                ++ join [NEWLINE] (map rstrip_newlines (l :: ls))).
        rewrite IH, chomp_app by discriminate. f_equal.
        destruct s; [contradiction|reflexivity].
    + rewrite IH.
      * now rewrite <- app_assoc.
      * rewrite no_newline_app, Hc. simpl.
        apply N.eqb_neq in Hn. now rewrite Hn.
Qed.

(** *** Documents *)

Lemma strip_no_backtick (s : str) :
  no_backtick s = true -> strip_backticks s = s.
Proof.
  unfold no_backtick, strip_backticks.
  induction s as [|c s IH]; [reflexivity|]. simpl. intros H.
  apply andb_prop in H as [Hc Hs]. now rewrite Hc, IH.
Qed.

Lemma strip_backticks_clean (s : str) : no_backtick (strip_backticks s) = true.
Proof.
  unfold no_backtick, strip_backticks. apply forallb_forall.
  intros c Hc. now apply filter_In in Hc.
Qed.

Lemma dict_set_same (d : dict) (key : str) (v : json) :
  dict_get d key = Some v -> dict_set d key v = d.
Proof.
  induction d as [|[k x] d IH]; [discriminate|]. simpl.
  destruct (str_eqb k key); [now intros [= ->]|].
  intros H. now rewrite IH.
Qed.

Lemma dict_get_hint_clean (clean : json -> bool) (d : dict) (s : str) :
  forallb (hint_entry_clean clean) d = true ->
  dict_get d hint = Some (JStr s) -> no_backtick s = true.
Proof.
  induction d as [|[k x] d IH]; [discriminate|]. simpl.
  intros H G. apply andb_prop in H as [Hx Hd].
  destruct (str_eqb k hint) eqn:E; [|now apply IH].
  injection G as ->. exact Hx.
Qed.

Lemma clean_own_hint_clean (d : dict) :
  forallb (hint_entry_clean hints_clean) d = true -> clean_own_hint d = d.
Proof.
  intros H. unfold clean_own_hint.
  destruct (dict_get d hint) as [v|] eqn:G; [|reflexivity].
  destruct v; try reflexivity. simpl.
  rewrite (strip_no_backtick s); [now apply dict_set_same|].
  now apply dict_get_hint_clean with (clean := hints_clean) (d := d).
Qed.

Lemma hint_entry_clean_value (kv : str * json) :
  hint_entry_clean hints_clean kv = true ->
  is_str (snd kv) = true \/ hints_clean (snd kv) = true.
Proof. destruct kv as [k v]. destruct v; simpl; auto. Qed.

Lemma clean_unchanged_both (data : json) :
  hints_clean data = true ->
  clean_hints data = data /\ clean_item clean_hints data = data.
Proof.
  induction data as [| | | | |items IH|d IH] using json_induction;
    intros H; try (split; reflexivity).
  - split; [|reflexivity]. simpl. f_equal. rewrite <- (map_id items) at 2.
    apply map_ext_in. intros item Hin. rewrite Forall_forall in IH.
    simpl in H. rewrite forallb_forall in H. now apply (IH item Hin), H.
  - rewrite Forall_forall in IH. simpl in H.
    pose proof H as Hall. rewrite forallb_forall in H.
    assert (V : forall kv, In kv d -> clean_hints (snd kv) = snd kv).
    { intros kv Hin.
      destruct (hint_entry_clean_value kv (H kv Hin)) as [S|C].
      - now apply clean_hints_str.
      - now apply (IH kv Hin). }
    split.
    + simpl. f_equal. rewrite <- (map_id d) at 2. apply map_ext_in.
      intros [k v] Hin. specialize (V _ Hin). specialize (H _ Hin).
      simpl in *. destruct (str_eqb k hint && is_str v) eqn:T;
        [|now rewrite V].
      apply andb_prop in T as [Hk Hv]. destruct v; try discriminate.
      simpl in *. rewrite Hk in H. now rewrite strip_no_backtick.
    + unfold clean_item. f_equal.
      replace (map (fun kv : str * json => (fst kv, clean_hints (snd kv))) d)
        with d.
      * now apply clean_own_hint_clean.
      * rewrite <- (map_id d) at 1. apply map_ext_in. intros [k v] Hin.
        simpl. f_equal. symmetry. apply (V (k, v) Hin).
Qed.

Lemma is_str_everywhere (v : json) : is_str (clean_everywhere v) = is_str v.
Proof. now destruct v. Qed.

Lemma clean_everywhere_clean (data : json) :
  hints_clean (clean_everywhere data) = true.
Proof.
  induction data as [| | | | |items IH|d IH] using json_induction;
    try reflexivity.
  - simpl. rewrite forallb_forall. intros x Hx.
    apply in_map_iff in Hx as (item & <- & Hin).
    rewrite Forall_forall in IH. now apply IH.
  - simpl. rewrite forallb_forall. intros x Hx.
    apply in_map_iff in Hx as ([k v] & <- & Hin).
    rewrite Forall_forall in IH. specialize (IH _ Hin). simpl in *.
    destruct (str_eqb k hint) eqn:E; simpl.
    + destruct v; simpl in *; try exact IH.
      now rewrite E, strip_backticks_clean.
    + destruct v; simpl in *; try exact IH. now rewrite E.
Qed.

(** *** Keys and lists after the cleaning *)

Lemma dict_set_keys (d : dict) (key : str) (v x : json) :
  dict_get d key = Some x -> map fst (dict_set d key v) = map fst d.
Proof.
  induction d as [|[k y] d IH]; [discriminate|]. simpl.
  destruct (str_eqb k key); [reflexivity|].
  intros H. simpl. now rewrite IH.
Qed.

Lemma clean_own_hint_keys (d : dict) :
  map fst (clean_own_hint d) = map fst d.
Proof.
  unfold clean_own_hint. destruct (dict_get d hint) as [v|] eqn:G;
    [|reflexivity].
  destruct (is_str v); [|reflexivity]. now apply dict_set_keys with v.
Qed.

Lemma clean_entry_key (f : json -> json) (kv : str * json) :
  fst (clean_entry f kv) = fst kv.
Proof.
  destruct kv as [k v]. simpl. now destruct (str_eqb k hint && is_str v).
Qed.

Lemma is_list_clean (v : json) : is_list (clean_hints v) = is_list v.
Proof. now destruct v. Qed.

Lemma is_list_clean_item (v : json) :
  is_list (clean_item clean_hints v) = is_list v.
Proof. now destruct v. Qed.

End CoverageFacts.

(** ** Further properties of clean_json.py *)
Module CleanJsonMore.
Import Re ReFacts Json CleanJson CleanJsonFacts FixHints FixHintsFacts.
Import FixHintsScript Coverage CoverageFacts.

(** X1. [re.match] finds the pattern of a key on a text exactly when the text
    is whitespace, the key, a content without newline, a quote, an optional
    comma and an optional final newline. *)
Theorem pattern_matches_shape (k : key) (line : str) :
  re_match (pattern k) line <> None <-> has_shape k line.
Proof.
  split.
  - destruct (re_match (pattern k) line) as [m|] eqn:H; [|congruence].
    intros _. apply re_match_sound in H
      as (w & c & sfx & t & Hw & Hc & Hs & Ht & E & _).
    now exists w, c, sfx, t.
  - intros (w & c & sfx & t & Hw & Hc & Hs & Ht & ->).
    now rewrite re_match_kv.
Qed.

(** X2. No text is matched by both patterns: the order in which [fix_line]
    tries them decides nothing. *)
Theorem patterns_exclusive (line : str) :
  re_match (pattern F) line = None \/ re_match (pattern B) line = None.
Proof.
  destruct (re_match (pattern F) line) as [mf|] eqn:HF; [|now left].
  right. destruct (re_match (pattern B) line) as [mb|] eqn:HB; [|reflexivity].
  apply re_match_sound in HF
    as (w & c & sfx & t & Hw & Hc & Hs & Ht & -> & _).
  apply re_match_kv_inv in HB as [[=] _]; assumption.
Qed.

(** X3. On a line, [fix_line] adds backslashes and does nothing else: with
    the backslashes taken out, the output is the input, and the output is at
    least as long as the input. *)
Theorem fix_line_only_adds_backslashes (line : str) :
  no_newline line = true ->
  drop_backslashes (fix_line line) = drop_backslashes line
  /\ length line <= length (fix_line line).
Proof.
  intros Hl.
  destruct (fix_line_cases line Hl)
    as [->|(k & w & c & s & _ & _ & _ & _ & _ & -> & ->)]; [auto|].
  unfold kv_line. rewrite !drop_backslashes_app, !length_app.
  rewrite escape_quotes_from, drop_backslashes_escape, escape_from_length.
  split; [reflexivity|lia].
Qed.

Lemma fix_line_only_adds_backslashes_witness :
  no_newline said_line = true
  /\ drop_backslashes (fix_line said_line) = drop_backslashes said_line
  /\ length said_line <= length (fix_line said_line).
Proof.
  split; [reflexivity|].
  apply (@fix_line_only_adds_backslashes said_line). reflexivity.
Defined.

(** X4. The scan adds one character for each quote of the content that does
    not come right after a backslash. *)
Theorem escape_quotes_length (content : str) :
  length (escape_quotes content) = length content + bare_quotes content.
Proof. rewrite escape_quotes_from. apply escape_from_length. Qed.

(** X5. A text made of a line of the designated shape and one final newline
    is repaired like the line: the newline is not put back. *)
Theorem fix_line_drops_final_newline (k : key) (w c s : str) :
  all_space w = true -> no_newline c = true -> opt_comma s = true ->
  fix_line (kv_line k w c s ++ [NEWLINE]) = fix_line (kv_line k w c s).
Proof.
  intros Hw Hc Hs. rewrite fix_line_final_newline by assumption.
  symmetry. rewrite kv_line_nil. now apply fix_line_kv.
Qed.

Lemma fix_line_drops_final_newline_witness :
  all_space (lit "  ") = true /\ no_newline said_content = true
  /\ opt_comma [COMMA] = true
  /\ fix_line (said_line ++ [NEWLINE]) = fix_line said_line.
Proof.
  repeat (split; [reflexivity|]).
  apply (@fix_line_drops_final_newline F (lit "  ") said_content [COMMA]);
    reflexivity.
Defined.

(** X6. The repair goes line by line: cut at its newlines, the text that
    [process_file] parses is the list of the lines read, each without its
    newline and passed through [fix_line]. *)
Theorem repaired_line_by_line (text : str) :
  text <> [] ->
  split_newline (repaired (split_lines [] (universal_newlines text))) =
  map (fun line => fix_line (rstrip_newlines line))
      (split_lines [] (universal_newlines text)).
Proof.
  intros Ht. unfold repaired, split_newline.
  assert (Hall : Forall (fun q => no_newline q = true)
            (map (fun line => fix_line (rstrip_newlines line))
                 (split_lines [] (universal_newlines text)))).
  { apply Forall_forall. intros q Hq. apply in_map_iff in Hq as (l & <- & Hl).
    apply fix_line_no_newline. now apply read_lines_no_newline with text. }
  destruct (split_lines [] (universal_newlines text)) as [|l ls] eqn:E.
  - apply split_lines_nil in E as [_ E]. destruct text as [|c text];
      [contradiction|]. simpl in E. destruct (c =? CR)%N; discriminate.
  - simpl map in *. now rewrite split_from_join.
Qed.

Lemma repaired_line_by_line_witness :
  raw_text <> []
  /\ split_newline (repaired (split_lines [] (universal_newlines raw_text)))
     = [lit "{"; kv_line F (lit "  ") said_fixed [COMMA]].
Proof.
  split; [discriminate|].
  rewrite (@repaired_line_by_line raw_text); [reflexivity|discriminate].
Defined.

(** X7. When no line of the file is of a designated shape, the text that
    [process_file] parses is the text of the file as read, less its final
    newline if it has one. *)
Theorem repaired_unmatched (text : str) :
  (forall line, In line (split_lines [] (universal_newlines text)) ->
                designated (rstrip_newlines line) = None) ->
  repaired (split_lines [] (universal_newlines text)) =
  chomp (universal_newlines text).
Proof.
  intros H. unfold repaired.
  change (chomp (universal_newlines text))
    with (chomp ([] ++ universal_newlines text)).
  rewrite <- (join_split_chomp [] (universal_newlines text) eq_refl).
  f_equal. apply map_ext_in. intros line Hin.
  now rewrite fix_line_designated, (H line Hin).
Qed.

Lemma repaired_unmatched_witness :
  repaired (split_lines [] (universal_newlines
                              (lit "{" ++ [CR; NEWLINE] ++ lit "}" ++ [NEWLINE])))
  = lit "{" ++ [NEWLINE] ++ lit "}".
Proof.
  rewrite (@repaired_unmatched
             (lit "{" ++ [CR; NEWLINE] ++ lit "}" ++ [NEWLINE]));
    [reflexivity|].
  intros line [<-|[<-|[]]]; reflexivity.
Defined.

(** X8. Without the input file, [process_file] prints that the file was
    not found, writes nothing and returns. *)
Theorem process_file_missing_input
  (json_loads : str -> JSONDecodeError + json) (json_dumps : json -> str)
  (w : World) :
  files w input_file = None ->
  exists w',
    process_file json_loads json_dumps w = (Ok tt, w')
    /\ stdout w' =
       stdout w ++ [ lit "Reading raw_questions.json...";
                     lit "File raw_questions.json not found." ]
    /\ (forall name, files w' name = files w name).
Proof.
  intros Hfile.
  unfold process_file, try_except, bind, print, read_lines.
  cbn [files stdout]. rewrite Hfile. cbn [files stdout].
  eexists. split; [reflexivity|]. cbn [files stdout].
  split; [now rewrite <- !app_assoc|reflexivity].
Qed.

Lemma process_file_missing_input_witness :
  files empty_world input_file = None
  /\ process_file rejecting_loads null_dumps empty_world =
     (Ok tt,
      {| files := fun _ => None;
         stdout := [ lit "Reading raw_questions.json...";
                     lit "File raw_questions.json not found." ] |}).
Proof.
  split; [reflexivity|].
  destruct (@process_file_missing_input rejecting_loads null_dumps
              empty_world eq_refl) as (w' & E & _).
  rewrite E. symmetry. rewrite <- E. reflexivity.
Defined.




End CleanJsonMore.

(** ** Further properties of fix_hints.py *)
Module FixHintsMore.
Import Json CleanJson FixHints FixHintsFacts.
Import FixHintsScript Coverage CoverageFacts.

Lemma questions_keys : keys_distinct questions.
Proof.
  simpl. repeat split; repeat constructor; simpl; intuition discriminate.
Qed.

(** X11. A document in which no text under the key hint holds a backtick
    comes out of [clean_hints] as it went in. *)
Theorem clean_hints_clean_unchanged (data : json) :
  hints_clean data = true -> clean_hints data = data.
Proof. intros H. now apply clean_unchanged_both. Qed.

Lemma clean_hints_clean_unchanged_witness :
  hints_clean questions_cleaned = true
  /\ clean_hints questions_cleaned = questions_cleaned.
Proof.
  split; [reflexivity|].
  apply (@clean_hints_clean_unchanged questions_cleaned). reflexivity.
Defined.

(** X12. On a document whose dicts have distinct keys and in which no list
    is an item of a list, [clean_hints] does what the traversal of every item
    and every value does: each text under the key hint, at any depth, loses
    its backticks. *)
Theorem clean_hints_full_traversal (data : json) :
  keys_distinct data -> no_list_in_list data = true ->
  clean_hints data = clean_everywhere data.
Proof. intros K L. now apply clean_reaches_both. Qed.

Lemma clean_hints_full_traversal_witness :
  keys_distinct questions /\ no_list_in_list questions = true
  /\ clean_hints questions = questions_cleaned.
Proof.
  split; [exact questions_keys|]. split; [reflexivity|].
  rewrite (@clean_hints_full_traversal questions questions_keys eq_refl).
  reflexivity.
Defined.

(** X13. On such a document, no text under the key hint holds a backtick
    once [clean_hints] has run. *)
Theorem clean_hints_leaves_no_backtick (data : json) :
  keys_distinct data -> no_list_in_list data = true ->
  hints_clean (clean_hints data) = true.
Proof.
  intros K L. rewrite (proj1 (clean_reaches_both data K L)).
  apply clean_everywhere_clean.
Qed.

Lemma clean_hints_leaves_no_backtick_witness :
  keys_distinct questions /\ no_list_in_list questions = true
  /\ hints_clean questions = false
  /\ hints_clean (clean_hints questions) = true.
Proof.
  split; [exact questions_keys|]. repeat (split; [reflexivity|]).
  apply (@clean_hints_leaves_no_backtick questions questions_keys eq_refl).
Defined.

(** X14. In a list, whatever else it holds, an item that is a dict with a
    text under the key hint comes out as a dict whose hint is that text
    without its backticks. *)
Theorem clean_hints_question_list
  (items : list json) (i : nat) (d : dict) (s : str) :
  nth_error items i = Some (JDict d) ->
  dict_get d hint = Some (JStr s) ->
  exists d',
    nth_error (items_of (clean_hints (JList items))) i = Some (JDict d')
    /\ dict_get d' hint = Some (JStr (strip_backticks s))
    /\ map fst d' = map fst d.
Proof.
  intros Hi Hd. eexists. cbn [clean_hints items_of]. split.
  - rewrite nth_error_map, Hi. reflexivity.
  - change (map (fun kv : str * json => (fst kv, clean_hints (snd kv))))
      with (on_values clean_hints).
    split.
    + unfold clean_own_hint. rewrite dict_get_on_values, Hd. simpl.
      apply dict_get_set.
    + rewrite clean_own_hint_keys. unfold on_values. rewrite map_map.
      reflexivity.
Qed.

Lemma clean_hints_question_list_witness :
  exists d',
    nth_error (items_of (clean_hints questions)) 0 = Some (JDict d')
    /\ dict_get d' hint = Some (JStr (lit "use +")).
Proof.
  destruct (@clean_hints_question_list (items_of questions) 0
              [(lit "q", JStr (lit "1+1")); (hint, JStr (lit "use `+`"))]
              (lit "use `+`") eq_refl eq_refl) as (d' & H1 & H2 & _).
  exists d'. split; [exact H1|exact H2].
Defined.

(** X15. Without the data file, the script prints the error and leaves the
    files as they are. *)
Theorem script_missing_file
  (json_loads : str -> JSONDecodeError + json) (json_dumps : json -> str)
  (w : World) :
  files w data_file = None ->
  exists w',
    script json_loads json_dumps w = (Ok tt, w')
    /\ stdout w' = stdout w ++ [lit "Error: " ++ exception_text FileNotFoundError]
    /\ (forall name, files w' name = files w name).
Proof.
  intros Hfile. unfold script, try_except, bind, read_text.
  rewrite Hfile. unfold print. cbn [files stdout].
  eexists. split; [reflexivity|]. cbn [files stdout]. auto.
Qed.

Lemma script_missing_file_witness :
  files empty_world data_file = None
  /\ fst (script toy_loads toy_dumps empty_world) = Ok tt.
Proof.
  split; [reflexivity|].
  destruct (@script_missing_file toy_loads toy_dumps empty_world eq_refl)
    as (w' & E & _).
  now rewrite E.
Defined.

(** X16. When the data file does not parse, the script prints the error of
    the parser and leaves the file as it is. *)
Theorem script_parse_error
  (json_loads : str -> JSONDecodeError + json) (json_dumps : json -> str)
  (w : World) (text : str) (e : JSONDecodeError) :
  files w data_file = Some text ->
  json_loads (universal_newlines text) = inl e ->
  exists w',
    script json_loads json_dumps w = (Ok tt, w')
    /\ stdout w' = stdout w ++ [lit "Error: " ++ error_text e]
    /\ (forall name, files w' name = files w name).
Proof.
  intros Hfile Hparse. unfold script, try_except, bind, read_text, loads.
  rewrite Hfile, Hparse. unfold raise, print. cbn [files stdout].
  eexists. split; [reflexivity|]. cbn [files stdout]. auto.
Qed.

Lemma script_parse_error_witness :
  files (world_with data_file (lit "{")) data_file = Some (lit "{")
  /\ toy_loads (universal_newlines (lit "{")) = inl no_value
  /\ files (snd (script toy_loads toy_dumps (world_with data_file (lit "{"))))
       data_file = Some (lit "{").
Proof.
  destruct (@script_parse_error toy_loads toy_dumps
              (world_with data_file (lit "{")) (lit "{") no_value
              eq_refl eq_refl) as (w' & E & _ & Fr).
  split; [reflexivity|]. split; [reflexivity|].
  rewrite E. simpl. rewrite Fr. reflexivity.
Defined.





End FixHintsMore.
